(** * Stream lifecycle and recording storage of the RTMP server

    A shallow embedding of
    - [RTMPServer.setupEventHandlers] (src/index.ts): the session map
      kept by the [prePublish] / [donePublish] listeners;
    - the LiveKit webhook route [/api/livekit/webhook] with its
      [activeEgressMap];
    - [LocalStorage], [S3Storage] and [StorageFactory] (src/storage), over a
      small model of the file system and of the object store;
    - the FLV viewer of the load test (loadtest/viewer_real.js): its tag
      loop and its ramp-up.

    JavaScript statements are embedded in a state monad whose results are
    completion records (normal, [return], [throw]), so that [try]/[catch],
    early [return] and [await] keep the shape they have in the source. *)

From Stdlib Require Import ZArith Ascii String List.
From stdpp Require Import base tactics option list gmap strings pretty.

Open Scope Z_scope.
Open Scope string_scope.

(** ** Completion records and the statement monad *)

Inductive Completion (R A : Type) : Type :=
| Normal (a : A)     (* the statement list ran to its end *)
| Return (r : R)     (* [return r] *)
| Throw (e : string) (* [throw new Error(e)]; [e] is [error.message] *).
Arguments Normal {R A} a.
Arguments Return {R A} r.
Arguments Throw {R A} e.

Definition Js (S R A : Type) : Type := S → Completion R A * S.

#[global] Instance Js_ret {S R} : MRet (Js S R) :=
  λ A a s, (Normal a, s).

#[global] Instance Js_bind {S R} : MBind (Js S R) :=
  λ A B k m s,
    match m s with
    | (Normal a, s') => k a s'
    | (Return r, s') => (Return r, s')
    | (Throw e, s') => (Throw e, s')
    end.

Definition js_return {S R A} (r : R) : Js S R A := λ s, (Return r, s).
Definition js_throw {S R A} (e : string) : Js S R A := λ s, (Throw e, s).
Definition js_get {S R} : Js S R S := λ s, (Normal s, s).
Definition js_modify {S R} (f : S → S) : Js S R unit := λ s, (Normal tt, f s).
Definition skip {S R} : Js S R unit := mret tt.

(** [try { body } catch (error) { handler error.message }] *)
Definition try_catch {S R A} (body : Js S R A) (handler : string → Js S R A)
  : Js S R A :=
  λ s, match body s with
       | (Throw e, s') => handler e s'
       | done => done
       end.

(** [if (c) { body }] without an [else] branch *)
Definition when {S R} (c : bool) (body : Js S R unit) : Js S R unit :=
  if c then body else skip.

(** [for (const x of xs) { body x }] *)
Fixpoint for_of {S R A} (xs : list A) (body : A → Js S R unit) : Js S R unit :=
  match xs with
  | [] => skip
  | x :: xs' => body x ;; for_of xs' body
  end.

(** The promise an [async] function hands to its caller, once settled. *)
Inductive Settled (A : Type) : Type :=
| Fulfilled (a : A)
| Rejected (e : string).
Arguments Fulfilled {A} a.
Arguments Rejected {A} e.

(** Calling an [async] function whose body is [body]: falling off the end
    and [return] both fulfil the promise, [throw] rejects it. *)
Definition async {S R} (body : Js S R R) : S → Settled R * S :=
  λ s, match body s with
       | (Normal r, s') | (Return r, s') => (Fulfilled r, s')
       | (Throw e, s') => (Rejected e, s')
       end.

(** [await p] *)
Definition await {S R A} (p : S → Settled A * S) : Js S R A :=
  λ s, match p s with
       | (Fulfilled a, s') => (Normal a, s')
       | (Rejected e, s') => (Throw e, s')
       end.

(** Truthiness of an optional string: [undefined] and the empty string are
    falsy, every other string is truthy. *)
Definition truthy (v : option string) : bool :=
  match v with
  | Some s => negb (String.eqb s "")
  | None => false
  end.

(** [a || b] on optional strings *)
Definition js_or (a b : option string) : option string :=
  if truthy a then a else b.

(** [logger.info], [logger.error], [console.log]: no effect on the state
    the properties below observe. *)
Definition logger {S R} (msg : string) : Js S R unit := skip.

(** does the string contain a path separator? *)
Fixpoint has_slash (s : string) : bool :=
  match s with
  | EmptyString => false
  | String c s' => Ascii.eqb c "/" || has_slash s'
  end.

(** ** Session registry (src/index.ts) *)

Module Registry.

(** [s.split("/")]: never empty, [""] splits into one empty segment. *)
Fixpoint split (s : string) : list string :=
  match s with
  | EmptyString => [""]
  | String c rest =>
      if Ascii.eqb c "/" then "" :: split rest
      else match split rest with
           | [] => [String c ""]
           | seg :: segs => String c seg :: segs
           end
  end.

(** [Array.prototype.pop]: the last element, [undefined] on an empty array *)
Definition pop (l : list string) : option string := last l.

Record RTMPServer := {
  sessionMap : gmap string string;
  (* ids of the sessions on which [session.reject()] has been called *)
  rejected : list string;
}.

(** [Map.prototype.set], called behind the guard [if (!streamKey)], which
    leaves no [undefined] key to store. *)
Definition sessionMap_set (k : option string) (v : string) : Js RTMPServer unit unit :=
  match k with
  | Some k => js_modify (λ s, {| sessionMap := <[k := v]> (sessionMap s);
                                 rejected := rejected s |})
  | None => skip
  end.

(** [Map.prototype.delete]; an [undefined] key is never present. *)
Definition sessionMap_delete (k : option string) : Js RTMPServer unit unit :=
  match k with
  | Some k => js_modify (λ s, {| sessionMap := delete k (sessionMap s);
                                 rejected := rejected s |})
  | None => skip
  end.

Definition session_reject (id : string) : Js RTMPServer unit unit :=
  js_modify (λ s, {| sessionMap := sessionMap s;
                     rejected := (rejected s ++ [id])%list |}).

(** the [prePublish] listener *)
Definition prePublish (id StreamPath : string) : RTMPServer → Settled unit * RTMPServer :=
  async (
    let streamKey := pop (split StreamPath) in
    logger "[prePublish]" ;;
    try_catch (
      when (negb (truthy streamKey)) (
        logger "invalid stream key, connection refused" ;;
        session_reject id ;;
        js_return tt) ;;
      sessionMap_set streamKey id)
    (λ error, logger error ;; session_reject id ;; js_return tt)).

(** the [donePublish] listener *)
Definition donePublish (id StreamPath : string) : RTMPServer → Settled unit * RTMPServer :=
  async (
    let streamKey := pop (split StreamPath) in
    try_catch (sessionMap_delete streamKey)
      (λ error, logger error ;; session_reject id ;;
                sessionMap_delete streamKey ;; js_return tt)).

(** *** Vocabulary of the properties *)

(** what node-media-server emits to the two listeners *)
Inductive Emitted :=
| PrePublish (id StreamPath : string)
| DonePublish (id StreamPath : string).

Definition emit (e : Emitted) (srv : RTMPServer) : RTMPServer :=
  match e with
  | PrePublish id StreamPath => (prePublish id StreamPath srv).2
  | DonePublish id StreamPath => (donePublish id StreamPath srv).2
  end.

(** the listeners run one after the other, in the order of the events *)
Definition emit_all (es : list Emitted) (srv : RTMPServer) : RTMPServer :=
  foldl (λ srv e, emit e srv) srv es.

(** the server as its constructor leaves it: [new Map()], no session refused *)
Definition constructed : RTMPServer := {| sessionMap := ∅; rejected := [] |}.

End Registry.

(** ** Egress orchestration: the webhook route of the LiveKit backend *)

Module Egress.

Record TrackInfo := {
  type : Z;              (* 0 = AUDIO, 1 = VIDEO *)
  sid : option string;
}.

Record ParticipantInfo := {
  identity : string;
  tracks : list TrackInfo;
}.

Record Room := { name : option string }.

Record IngressInfo := {
  roomName : option string;
  ingressName : option string;   (* [ingressInfo.name] *)
}.

Record WebhookEvent := {
  event : string;
  room : option Room;
  track : option TrackInfo;
  ingressInfo : option IngressInfo;
}.

(** What the handler asks of the outside world, in the order it asks. *)
Inductive Call :=
| SetTimeout (ms : Z)
| ListParticipants (room : string)
| StartTrackCompositeEgress (room url audioTrackId videoTrackId : string)
| StopEgress (egressId : string).

(** The answers of the LiveKit server.  [listParticipants n r] answers the
    query for room [r] made after [n] earlier queries; [startEgress] gives
    [result.egressId] of the started job, the empty string standing for an
    answer without an id (the handler tests the id for truthiness only). *)
Record LiveKit := {
  listParticipants : nat → string → Settled (list ParticipantInfo);
  startEgress : string → string → string → Settled string;
  stopEgress : string → Settled unit;
}.

Record Server := {
  activeEgressMap : gmap string string;
  calls : list Call;
}.

Inductive Response :=
| Json_ok                     (* [res.json({ ok: true })] *)
| Status400 (error : string)  (* [res.status(400).json({ error })] *).

Definition record (c : Call) (s : Server) : Server :=
  {| activeEgressMap := activeEgressMap s; calls := (calls s ++ [c])%list |}.

Definition is_query (c : Call) : bool :=
  match c with ListParticipants _ => true | _ => false end.

Definition is_start (c : Call) : bool :=
  match c with StartTrackCompositeEgress _ _ _ _ => true | _ => false end.

Definition is_stop (c : Call) : bool :=
  match c with StopEgress _ => true | _ => false end.

Definition count (p : Call → bool) (cs : list Call) : nat :=
  length (List.filter p cs).

(** [await new Promise((resolve) => setTimeout(resolve, ms))] *)
Definition setTimeout (ms : Z) : Server → Settled unit * Server :=
  λ s, (Fulfilled tt, record (SetTimeout ms) s).

Definition roomClient_listParticipants (lk : LiveKit) (r : string)
  : Server → Settled (list ParticipantInfo) * Server :=
  λ s, (listParticipants lk (count is_query (calls s)) r,
        record (ListParticipants r) s).

Definition egressClient_startTrackCompositeEgress (lk : LiveKit)
    (r url audioTrackId videoTrackId : string)
  : Server → Settled string * Server :=
  λ s, (startEgress lk r audioTrackId videoTrackId,
        record (StartTrackCompositeEgress r url audioTrackId videoTrackId) s).

Definition egressClient_stopEgress (lk : LiveKit) (egressId : string)
  : Server → Settled unit * Server :=
  λ s, (stopEgress lk egressId, record (StopEgress egressId) s).

Definition activeEgressMap_has {R} (r : string) : Js Server R bool :=
  s ← js_get; mret (bool_decide (is_Some (activeEgressMap s !! r))).

Definition activeEgressMap_get {R} (r : string) : Js Server R (option string) :=
  s ← js_get; mret (activeEgressMap s !! r).

Definition activeEgressMap_set {R} (r egressId : string) : Js Server R unit :=
  js_modify (λ s, {| activeEgressMap := <[r := egressId]> (activeEgressMap s);
                     calls := calls s |}).

Definition activeEgressMap_delete {R} (r : string) : Js Server R unit :=
  js_modify (λ s, {| activeEgressMap := delete r (activeEgressMap s);
                     calls := calls s |}).

(** [pub.tracks.find((t) => t.type === 0)?.sid] *)
Definition audio_sid (pub : ParticipantInfo) : option string :=
  List.find (λ t, Z.eqb (type t) 0) (tracks pub) ≫= sid.

(** The [track_published] branch, from the point where the room name and the
    track are known to be present, in two parts: what runs before the first
    [await] (the guards, the presence test last), and what runs from it on. *)
Definition track_published_guards (roomName : string) (track : TrackInfo)
  : Js Server Response unit :=
  when (Z.eqb (type track) 0) (
    logger "Audio track published, skip..." ;; js_return Json_ok) ;;
  when (negb (Z.eqb (type track) 1)) (
    logger "Non-video track, ignore" ;; js_return Json_ok) ;;
  running ← activeEgressMap_has roomName;
  when running (
    logger "HLS already running for room" ;; js_return Json_ok) ;;
  logger "Starting HLS Egress for room".

Definition track_published_resumed (lk : LiveKit) (roomName : string)
    (track : TrackInfo) : Js Server Response unit :=
  let videoTrackId := sid track in
  await (setTimeout 1200) ;;
  participants ← await (roomClient_listParticipants lk roomName);
  participants ←
    (if Nat.eqb (length participants) 0 then
       logger "No participants yet, retrying..." ;;
       await (setTimeout 1000) ;;
       await (roomClient_listParticipants lk roomName)
     else mret participants);
  match participants with
  | [] => logger "No publisher. Abort HLS start." ;; js_return Json_ok
  | pub :: _ =>
      let audioTrackId := audio_sid pub in
      match videoTrackId, audioTrackId with
      | Some videoTrackId, Some audioTrackId =>
          when (negb (truthy (Some videoTrackId)) || negb (truthy (Some audioTrackId))) (
            logger "Missing tracks" ;; js_return Json_ok) ;;
          let url := "rtmp://localhost:1936/live/" +:+ roomName in
          try_catch (
            egressId ← await (egressClient_startTrackCompositeEgress
                                lk roomName url audioTrackId videoTrackId);
            logger "HLS Egress Started" ;;
            activeEgressMap_set roomName egressId)
          (λ err, logger "Failed to start HLS egress")
      | _, _ => logger "Missing tracks" ;; js_return Json_ok
      end
  end.

(** the branch as one request runs it when no other request comes in between *)
Definition track_published (lk : LiveKit) (roomName : string) (track : TrackInfo)
  : Js Server Response unit :=
  track_published_guards roomName track ;;
  track_published_resumed lk roomName track.

(** [event.ingressInfo?.roomName || event.ingressInfo?.name] *)
Definition ingress_room (info : option IngressInfo) : option string :=
  js_or (info ≫= roomName) (info ≫= ingressName).

(** The [ingress_ended] branch. *)
Definition ingress_ended (lk : LiveKit) (info : option IngressInfo)
  : Js Server Response unit :=
  match ingress_room info with
  | Some roomName =>
      when (negb (truthy (Some roomName))) (
        logger "ingress_ended but NO roomName" ;; js_return Json_ok) ;;
      egressId ← activeEgressMap_get roomName;
      match egressId with
      | Some egressId =>
          when (negb (truthy (Some egressId))) (
            logger "No active egress for room" ;; js_return Json_ok) ;;
          logger "Stopping egress" ;;
          try_catch (await (egressClient_stopEgress lk egressId))
            (λ err, logger "Failed to stop egress") ;;
          activeEgressMap_delete roomName
      | None => logger "No active egress for room" ;; js_return Json_ok
      end
  | None => logger "ingress_ended but NO roomName" ;; js_return Json_ok
  end.

(** [event.room?.name] *)
Definition event_room (ev : WebhookEvent) : option string := room ev ≫= name.

(** [app.post("/api/livekit/webhook", ...)].  [received] is the outcome of
    [receiver.receive(req.body, auth)]: the verified event, or the rejection
    of a request whose signature or payload does not check. *)
Definition webhook (lk : LiveKit) (received : Settled WebhookEvent)
  : Server → Settled Response * Server :=
  async (
    try_catch (
      ev ← await (λ s, (received, s));
      logger "Webhook event" ;;
      when (String.eqb (event ev) "track_published") (
        match event_room ev, track ev with
        | Some roomName, Some track =>
            when (negb (truthy (Some roomName))) (
              logger "track_published but missing room/track" ;;
              js_return Json_ok) ;;
            track_published lk roomName track
        | _, _ =>
            logger "track_published but missing room/track" ;;
            js_return Json_ok
        end) ;;
      when (String.eqb (event ev) "ingress_ended") (
        ingress_ended lk (ingressInfo ev)) ;;
      js_return Json_ok)
    (λ err, logger "Webhook error" ;; js_return (Status400 err))).

(** *** Vocabulary of the properties *)

(** the room an [ingress_ended] event is about *)
Definition ended_room (ev : WebhookEvent) : option string :=
  ingress_room (ingressInfo ev).


(** [ev] is a [track_published] event for room [R] with the video track [t] *)
Definition video_published (R : string) (t : TrackInfo) (ev : WebhookEvent) : Prop :=
  event ev = "track_published" ∧ event_room ev = Some R ∧
  track ev = Some t ∧ type t = 1.



(** The participants a run of the handler goes on with, when [n] queries
    have been made before it: the first answer, or the second one when the
    first is empty. *)
Definition answer (lk : LiveKit) (n : nat) (R : string)
  : Settled (list ParticipantInfo) :=
  match listParticipants lk n R with
  | Fulfilled [] => listParticipants lk (S n) R
  | first => first
  end.

(** the delays and queries of such a run *)
Definition queries (lk : LiveKit) (n : nat) (R : string) : list Call :=
  match listParticipants lk n R with
  | Fulfilled [] => [SetTimeout 1200; ListParticipants R;
                     SetTimeout 1000; ListParticipants R]
  | _ => [SetTimeout 1200; ListParticipants R]
  end.

(** the participant query leaves the start without a publisher or without
    one of the two track ids *)
Definition incomplete (lk : LiveKit) (n : nat) (R : string) (t : TrackInfo) : Prop :=
  match answer lk n R with
  | Fulfilled [] => True
  | Fulfilled (pub :: _) => truthy (sid t) && truthy (audio_sid pub) = false
  | Rejected _ => False
  end.

(** every start call the platform answers comes with the id of the job *)
Definition id_bearing (lk : LiveKit) : Prop :=
  ∀ r a v egressId, startEgress lk r a v = Fulfilled egressId → egressId ≠ "".

(** webhook requests handled one after the other, each with the platform
    as it answers at that time *)
Fixpoint deliver (evs : list (LiveKit * Settled WebhookEvent)) (s : Server) : Server :=
  match evs with
  | [] => s
  | (lk, received) :: evs' => deliver evs' (webhook lk received s).2
  end.

(** *** Sample rooms and platforms *)

Definition room1_publisher : ParticipantInfo :=
  {| identity := "rtmp_publisher";
     tracks := [ {| type := 1; sid := Some "TR_video" |};
                 {| type := 0; sid := Some "TR_audio" |} ] |}.

Definition room1_video : WebhookEvent :=
  {| event := "track_published";
     room := Some {| name := Some "room1" |};
     track := Some {| type := 1; sid := Some "TR_video" |};
     ingressInfo := None |}.

Definition room1_ended : WebhookEvent :=
  {| event := "ingress_ended"; room := None; track := None;
     ingressInfo := Some {| roomName := Some "room1";
                            ingressName := Some "room1" |} |}.

Definition idle : Server := {| activeEgressMap := ∅; calls := [] |}.

(** a platform that knows the publisher at once and starts the job *)
Definition ready : LiveKit :=
  {| listParticipants := λ _ _, Fulfilled [room1_publisher];
     startEgress := λ _ _ _, Fulfilled "EG_1";
     stopEgress := λ _, Fulfilled tt |}.

(** a platform whose egress service refuses every start and every stop *)
Definition egress_down : LiveKit :=
  {| listParticipants := λ _ _, Fulfilled [room1_publisher];
     startEgress := λ _ _ _, Rejected "egress service unavailable";
     stopEgress := λ _, Rejected "egress service unavailable" |}.

(** the publisher is in the room, its audio track is not published yet *)
Definition video_only : LiveKit :=
  {| listParticipants := λ _ _,
       Fulfilled [ {| identity := "rtmp_publisher";
                      tracks := [ {| type := 1; sid := Some "TR_video" |} ] |} ];
     startEgress := λ _ _ _, Fulfilled "EG_1";
     stopEgress := λ _, Fulfilled tt |}.

(** a platform whose start call answers without a job id *)
Definition anonymous_job : LiveKit :=
  {| listParticipants := λ _ _, Fulfilled [room1_publisher];
     startEgress := λ _ _ _, Fulfilled "";
     stopEgress := λ _, Fulfilled tt |}.

(** nobody has joined the room *)
Definition empty_room : LiveKit :=
  {| listParticipants := λ _ _, Fulfilled [];
     startEgress := λ _ _ _, Fulfilled "EG_1";
     stopEgress := λ _, Fulfilled tt |}.

End Egress.

(** ** Recording storage (src/storage) *)

Module Storage.

(** *** The file system seen through fs-extra

    Paths are taken in normalised form, so that [path.join(dir, name)] is
    [dir/name].  The entries are kept in the order in which a directory
    enumerates them. *)

Record Stats := {
  size : Z;
  birthtime : Z;   (* [stats.birthtime.getTime()], milliseconds *)
}.

(** An object of the bucket, as [upload] writes it. *)
Record S3Object := {
  ContentLength : Z;
  ContentType : string;
  Metadata : gmap string string;
  StorageClass : string;
  ServerSideEncryption : string;
}.

Record World := {
  files : list (string * Stats);
  (* paths the operating system refuses to unlink or rename (EPERM) *)
  readonly : list string;
  buckets : gmap string (gmap string S3Object);
  (* [Some e]: every request to the object store is rejected with [e]
     (no network, bad credentials) *)
  s3_failure : option string;
  (* promises that were rejected with nobody awaiting or catching them *)
  unhandledRejections : list string;
  now : Z;   (* [Date.now()] *)
}.

Definition set_files (f : list (string * Stats) → list (string * Stats))
    (w : World) : World :=
  {| files := f (files w); readonly := readonly w; buckets := buckets w;
     s3_failure := s3_failure w;
     unhandledRejections := unhandledRejections w; now := now w |}.

Definition set_buckets
    (f : gmap string (gmap string S3Object) → gmap string (gmap string S3Object))
    (w : World) : World :=
  {| files := files w; readonly := readonly w; buckets := f (buckets w);
     s3_failure := s3_failure w;
     unhandledRejections := unhandledRejections w; now := now w |}.

Definition unhandled (e : string) (w : World) : World :=
  {| files := files w; readonly := readonly w; buckets := buckets w;
     s3_failure := s3_failure w;
     unhandledRejections := (unhandledRejections w ++ [e])%list; now := now w |}.

(** [strip pre s]: what follows [pre] in [s], when [s] starts with [pre]. *)
Fixpoint strip (pre s : string) : option string :=
  match pre, s with
  | EmptyString, _ => Some s
  | String a pre', String b s' => if Ascii.eqb a b then strip pre' s' else None
  | String _ _, EmptyString => None
  end.

(** a single, non-empty path segment *)
Definition is_name (n : string) : bool :=
  negb (String.eqb n "") && negb (has_slash n).

(** [path.join(dir, name)] as the path of the entry [name] of [dir].
    [path.join] also normalises: for an empty [name], for [.] and [..] and
    for a [name] with a separator in it the path it returns is another one
    than the entry written here. *)
Definition path_join (dir name : string) : string := dir +:+ "/" +:+ name.

(** [q] is [p] or lies below the directory [p] *)
Definition under (p q : string) : bool :=
  String.eqb p q || bool_decide (is_Some (strip (p +:+ "/") q)).

(** the name of [p] inside [dir], when [p] is an entry of [dir] itself *)
Definition entry_of (dir p : string) : option string :=
  n ← strip (dir +:+ "/") p; if is_name n then Some n else None.

Fixpoint lookup_path (p : string) (fs : list (string * Stats)) : option Stats :=
  match fs with
  | [] => None
  | (q, st) :: fs' => if String.eqb p q then Some st else lookup_path p fs'
  end.

Definition In_dec_str (p : string) (l : list string) : bool :=
  existsb (String.eqb p) l.

Definition fs_pathExists (p : string) : World → Settled bool * World :=
  λ w, (Fulfilled (bool_decide (is_Some (lookup_path p (files w)))), w).

Definition fs_stat (p : string) : World → Settled Stats * World :=
  λ w, match lookup_path p (files w) with
       | Some st => (Fulfilled st, w)
       | None => (Rejected ("ENOENT: no such file or directory, stat " +:+ p), w)
       end.

(** the names of the entries of [dir], in directory order *)
Definition dir_entries (dir : string) (fs : list (string * Stats)) : list string :=
  omap (λ e, entry_of dir e.1) fs.

Definition fs_readdir (dir : string) : World → Settled (list string) * World :=
  λ w, match lookup_path dir (files w) with
       | Some _ => (Fulfilled (dir_entries dir (files w)), w)
       | None => (Rejected ("ENOENT: no such file or directory, scandir " +:+ dir), w)
       end.

(** What stands in the way of [rm -rf p]: the first protected path that
    exists at [p] or below it. *)
Definition blocked (p : string) (w : World) : option string :=
  List.find (λ q, under p q && bool_decide (is_Some (lookup_path q (files w))))
    (readonly w).

(** [fs.remove]: like [rm -rf]; a missing path is not an error. The removal
    is refused when [p], or a path below it, is protected. What [rm -rf] has
    taken from below a directory before it meets the protected path depends
    on the order of its traversal: the model keeps what lies below [p] as it
    was, and the properties of a refused removal speak of [p] itself and of
    what lies outside of it. *)
Definition fs_remove (p : string) : World → Settled unit * World :=
  λ w, match lookup_path p (files w) with
       | None => (Fulfilled tt, w)
       | Some _ =>
           match blocked p w with
           | Some q =>
               (Rejected ("EPERM: operation not permitted, unlink " +:+ q), w)
           | None =>
               (Fulfilled tt,
                set_files (List.filter (λ e, negb (under p e.1))) w)
           end
       end.

(** [fs.ensureDir], for a directory whose parent exists *)
Definition fs_ensureDir (p : string) : World → Settled unit * World :=
  λ w, match lookup_path p (files w) with
       | Some _ => (Fulfilled tt, w)
       | None => (Fulfilled tt,
                  set_files (λ fs, (fs ++ [(p, {| size := 0; birthtime := now w |})])%list) w)
       end.

(** what precedes the last separator of [p] *)
Fixpoint before_last_slash (p : string) : string :=
  match p with
  | EmptyString => EmptyString
  | String c p' =>
      if has_slash p' then String c (before_last_slash p') else EmptyString
  end.

(** [path.dirname] of a normalised relative path *)
Definition dirname (p : string) : string :=
  if has_slash p then before_last_slash p else ".".

(** [dest] is taken: it is listed, or a listed path lies below it, so that
    it is a directory that exists (as the directories above the recordings
    directory exist without being listed) *)
Definition occupied (dest : string) (fs : list (string * Stats)) : bool :=
  existsb (λ e, under dest e.1) fs.

(** [fs.move] of a file, with the default [overwrite: false]: once the
    source is found, the directory of the destination is created when it is
    missing ([mkdirp(path.dirname(dest))]), then the destination is tested
    and the file renamed. *)
Definition fs_move (src dest : string) : World → Settled unit * World :=
  λ w, match lookup_path src (files w) with
       | None => (Rejected ("ENOENT: no such file or directory, lstat " +:+ src), w)
       | Some st =>
           let w := (fs_ensureDir (dirname dest) w).2 in
           if occupied dest (files w)
           then (Rejected "dest already exists.", w)
           else if In_dec_str src (readonly w)
           then (Rejected ("EPERM: operation not permitted, rename " +:+ src), w)
           else (Fulfilled tt,
                 set_files (λ fs, (List.filter (λ e, negb (String.eqb src e.1)) fs
                                   ++ [(dest, st)])%list) w)
       end.

Definition Date_now {R} : Js World R Z := w ← js_get; mret (now w).

(** *** The object store seen through the AWS SDK *)

Definition s3_headBucket (bucket : string) : World → Settled unit * World :=
  λ w, match s3_failure w with
       | Some e => (Rejected e, w)
       | None => match buckets w !! bucket with
                 | Some _ => (Fulfilled tt, w)
                 | None => (Rejected "NotFound", w)
                 end
       end.

(** [s3.upload(params).promise()] with [Body] the read stream of the file at
    [body]; fulfils with [uploadResult.Location]. *)
Definition s3_upload (bucket key body : string) (obj : Z → S3Object)
  : World → Settled string * World :=
  λ w, match s3_failure w with
       | Some e => (Rejected e, w)
       | None =>
           match lookup_path body (files w), buckets w !! bucket with
           | None, _ => (Rejected ("ENOENT: no such file or directory, open " +:+ body), w)
           | _, None => (Rejected "NoSuchBucket", w)
           | Some st, Some objs =>
               (Fulfilled ("https://" +:+ bucket +:+ ".s3.amazonaws.com/" +:+ key),
                set_buckets (insert bucket (<[key := obj (size st)]> objs)) w)
           end
       end.

(** [s3.deleteObject]: the store acknowledges the deletion of a key whether
    or not an object was stored under it. *)
Definition s3_deleteObject (bucket key : string) : World → Settled unit * World :=
  λ w, match s3_failure w with
       | Some e => (Rejected e, w)
       | None => match buckets w !! bucket with
                 | None => (Rejected "NoSuchBucket", w)
                 | Some objs =>
                     (Fulfilled tt, set_buckets (insert bucket (delete key objs)) w)
                 end
       end.

(** *** base-storage.ts *)

Record IStorageMetadata := {
  streamKey : string;
  fileName : string;
  fileSize : Z;
  duration : option Z;
  quality : option string;
  thumbnailPath : option string;
  uploadTime : Z;
}.

(** [Partial<IStorageMetadata>] *)
Record PartialMetadata := {
  streamKey' : option string;
  fileName' : option string;
  fileSize' : option Z;
  duration' : option Z;
  quality' : option string;
  thumbnailPath' : option string;
  uploadTime' : option Z;
}.

Definition no_metadata : PartialMetadata :=
  {| streamKey' := None; fileName' := None; fileSize' := None;
     duration' := None; quality' := None; thumbnailPath' := None;
     uploadTime' := None |}.

Record IStorageResult := {
  success : bool;
  filePath : option string;
  url : option string;
  metadata : IStorageMetadata;
  error : option string;
}.

(** [{ streamKey, fileName, fileSize, uploadTime, ...metadata }]: a field the
    caller supplies replaces the computed one. *)
Definition spread (streamKey fileName : string) (fileSize uploadTime : Z)
    (m : PartialMetadata) : IStorageMetadata :=
  {| streamKey := default streamKey (streamKey' m);
     fileName := default fileName (fileName' m);
     fileSize := default fileSize (fileSize' m);
     duration := duration' m;
     quality := quality' m;
     thumbnailPath := thumbnailPath' m;
     uploadTime := default uploadTime (uploadTime' m) |}.

(** the result of every [catch] branch of [saveRecording] *)
Definition failure (streamKey : string) (uploadTime : Z) (message : string)
  : IStorageResult :=
  {| success := false; filePath := None; url := None;
     metadata := {| streamKey := streamKey; fileName := ""; fileSize := 0;
                    duration := None; quality := None; thumbnailPath := None;
                    uploadTime := uploadTime |};
     error := Some message |}.

(** [s.replace(/[:.]/g, "-")] *)
Fixpoint replace_colon_dot (s : string) : string :=
  match s with
  | EmptyString => EmptyString
  | String c s' =>
      String (if Ascii.eqb c ":" || Ascii.eqb c "." then "-"%char else c)
             (replace_colon_dot s')
  end.

(** [String.prototype.toLowerCase], on ASCII letters *)
Fixpoint toLowerCase (s : string) : string :=
  match s with
  | EmptyString => EmptyString
  | String c s' =>
      let n := nat_of_ascii c in
      String (if Nat.leb 65 n && Nat.leb n 90 then ascii_of_nat (n + 32) else c)
             (toLowerCase s')
  end.

Section Classes.

(** [Date.prototype.toISOString], of the JavaScript runtime *)
Variable toISOString : Z → string.

(** [process.env] *)
Variable env : gmap string string.

Definition getenv (k : string) : option string := env !! k.

(** a template literal prints a missing value as [undefined] *)
Definition interpolate (v : option string) : string := default "undefined" v.

(** *** local-storage.ts *)

Record LocalStorage := {
  recordingsPath : string;
  tempPath : string;
}.

Definition initializeDirectories (this : LocalStorage)
  : World → Settled unit * World :=
  async (
    try_catch (
      await (fs_ensureDir (recordingsPath this)) ;;
      await (fs_ensureDir (tempPath this)) ;;
      await (fs_ensureDir (path_join (recordingsPath this) "thumbnails")) ;;
      logger "Local storage directories initialized")
    (λ error,
      logger "Failed to initialize local storage directories" ;;
      js_throw error)).

(** Calling an [async] function without [await] and without a handler: the
    caller goes on whatever becomes of the promise; a rejection ends up
    unhandled. *)
Definition floating {R A} (p : World → Settled A * World) : Js World R unit :=
  λ w, match p w with
       | (Fulfilled _, w') => (Normal tt, w')
       | (Rejected e, w') => (Normal tt, unhandled e w')
       end.

(** [new LocalStorage()] *)
Definition LocalStorage_new {R} : Js World R LocalStorage :=
  let this :=
    {| recordingsPath :=
         interpolate (js_or (getenv "LOCAL_RECORDINGS_PATH") (Some "./media/recordings"));
       tempPath :=
         interpolate (js_or (getenv "LOCAL_TEMP_PATH") (Some "./media/temp")) |} in
  floating (initializeDirectories this) ;;
  mret this.

Definition local_url (fileName : string) : string :=
  "http://localhost:" +:+ interpolate (getenv "HTTP_PORT")
    +:+ "/recordings/" +:+ fileName.

Definition Local_saveRecording (this : LocalStorage)
    (tempFilePath streamKey : string) (metadata : PartialMetadata)
  : World → Settled IStorageResult * World :=
  async (
    try_catch (
      d ← Date_now;
      let timestamp := replace_colon_dot (toISOString d) in
      let fileName := streamKey +:+ "_" +:+ timestamp +:+ ".flv" in
      let finalPath := path_join (recordingsPath this) fileName in
      found ← await (fs_pathExists tempFilePath);
      when (negb found) (js_throw ("Temp file not found: " +:+ tempFilePath)) ;;
      await (fs_move tempFilePath finalPath) ;;
      stats ← await (fs_stat finalPath);
      uploaded ← Date_now;
      let result :=
        {| success := true;
           filePath := Some finalPath;
           url := Some (local_url fileName);
           metadata := spread streamKey fileName (size stats) uploaded metadata;
           error := None |} in
      logger ("Recording saved locally: " +:+ fileName) ;;
      js_return result)
    (λ error,
      logger "Failed to save recording locally" ;;
      at_ ← Date_now;
      js_return (failure streamKey at_ error))).

Definition Local_getRecordingUrl (this : LocalStorage) (fileName : string)
  : World → Settled string * World :=
  async (
    let filePath := path_join (recordingsPath this) fileName in
    found ← await (fs_pathExists filePath);
    when found (js_return (local_url fileName)) ;;
    js_throw ("Recording not found: " +:+ fileName)).

Definition Local_deleteRecording (this : LocalStorage) (fileName : string)
  : World → Settled bool * World :=
  async (
    try_catch (
      let filePath := path_join (recordingsPath this) fileName in
      found ← await (fs_pathExists filePath);
      when found (
        await (fs_remove filePath) ;;
        logger ("Recording deleted: " +:+ fileName) ;;
        js_return true) ;;
      js_return false)
    (λ error,
      logger ("Failed to delete recording " +:+ fileName) ;;
      js_return false)).

(** One turn of the loop of [cleanupOldRecordings]; [deletedCount] is the
    loop's counter. *)
Definition cleanup_step (this : LocalStorage) (cutoffTime : Z)
    (file : string) (deletedCount : Z) : Js World Z Z :=
  let filePath := path_join (recordingsPath this) file in
  stats ← await (fs_stat filePath);
  if Z.ltb (birthtime stats) cutoffTime then
    await (fs_remove filePath) ;;
    logger ("Cleaned up old recording: " +:+ file) ;;
    mret (deletedCount + 1)
  else mret deletedCount.

(** [for (const file of files) { ... }] around [cleanup_step] *)
Fixpoint cleanup_loop (this : LocalStorage) (cutoffTime : Z)
    (files : list string) (deletedCount : Z) : Js World Z Z :=
  match files with
  | [] => mret deletedCount
  | file :: files' =>
      deletedCount ← cleanup_step this cutoffTime file deletedCount;
      cleanup_loop this cutoffTime files' deletedCount
  end.

Definition cleanupOldRecordings (this : LocalStorage) (maxAgeHours : Z)
  : World → Settled Z * World :=
  async (
    try_catch (
      files ← await (fs_readdir (recordingsPath this));
      t ← Date_now;
      let cutoffTime := t - maxAgeHours * 60 * 60 * 1000 in
      deletedCount ← cleanup_loop this cutoffTime files 0;
      js_return deletedCount)
    (λ error,
      logger "Failed to cleanup old recordings" ;;
      js_return 0)).

(** *** s3-storage.ts *)

Record S3Storage := {
  bucketName : string;
  recordingsPrefix : string;
  cloudFrontDomain : option string;
}.

Definition verifyConnection (this : S3Storage) : World → Settled unit * World :=
  async (
    try_catch (
      await (s3_headBucket (bucketName this)) ;;
      logger ("S3 connection verified: " +:+ bucketName this))
    (λ error,
      logger "S3 connection failed" ;;
      js_throw ("S3 connection failed: " +:+ error))).

(** [new S3Storage()]: the constructor calls [this.verifyConnection()] and
    drops the promise. *)
Definition S3Storage_new {R} : Js World R S3Storage :=
  let this :=
    {| bucketName :=
         interpolate (js_or (getenv "S3_BUCKET_NAME") (Some "livestream-recordings"));
       recordingsPrefix :=
         interpolate (js_or (getenv "S3_RECORDINGS_PREFIX") (Some "recordings/"));
       cloudFrontDomain := getenv "CLOUDFRONT_DOMAIN" |} in
  floating (verifyConnection this) ;;
  mret this.

(** [JSON.stringify] of a string: the string between double quotes (the
    escapes of special characters are left out) *)
Definition json_string (s : string) : string :=
  let q := String (Ascii.ascii_of_nat 34) EmptyString in q +:+ s +:+ q.

(** [Object.entries(metadata).map(...)]: the caller's fields as header
    values, strings as they are, anything else through [JSON.stringify]. *)
Definition metadata_entries (m : PartialMetadata) : list (string * string) :=
  omap id
    [ (λ v, ("streamKey", v)) <$> streamKey' m;
      (λ v, ("fileName", v)) <$> fileName' m;
      (λ v, ("fileSize", pretty v)) <$> fileSize' m;
      (λ v, ("duration", pretty v)) <$> duration' m;
      (λ v, ("quality", v)) <$> quality' m;
      (λ v, ("thumbnailPath", v)) <$> thumbnailPath' m;
      (λ v, ("uploadTime", json_string (toISOString v))) <$> uploadTime' m ].

Definition uploadParams_object (streamKey fileName : string) (uploadTime : Z)
    (m : PartialMetadata) (fileSize : Z) (ContentLength : Z) : S3Object :=
  {| ContentLength := ContentLength;
     ContentType := "video/x-flv";
     Metadata :=
       list_to_map (metadata_entries m) ∪
       list_to_map [ ("streamKey", streamKey);
                     ("originalFileName", fileName);
                     ("uploadTime", toISOString uploadTime);
                     ("fileSize", pretty fileSize) ];
     StorageClass := "STANDARD_IA";
     ServerSideEncryption := "AES256" |}.

Definition S3_saveRecording (this : S3Storage)
    (tempFilePath streamKey : string) (metadata : PartialMetadata)
  : World → Settled IStorageResult * World :=
  async (
    try_catch (
      found ← await (fs_pathExists tempFilePath);
      when (negb found) (js_throw ("Temp file not found: " +:+ tempFilePath)) ;;
      d ← Date_now;
      let timestamp := replace_colon_dot (toISOString d) in
      let fileName := streamKey +:+ "_" +:+ timestamp +:+ ".flv" in
      let s3Key := recordingsPrefix this +:+ streamKey +:+ "/" +:+ fileName in
      stats ← await (fs_stat tempFilePath);
      t ← Date_now;
      Location ← await (s3_upload (bucketName this) s3Key tempFilePath
                          (uploadParams_object streamKey fileName t metadata (size stats)));
      await (fs_remove tempFilePath) ;;
      let url := if truthy (cloudFrontDomain this)
                 then "https://" +:+ interpolate (cloudFrontDomain this) +:+ "/" +:+ s3Key
                 else Location in
      uploaded ← Date_now;
      let result :=
        {| success := true;
           filePath := Some s3Key;
           url := Some url;
           metadata := spread streamKey fileName (size stats) uploaded metadata;
           error := None |} in
      logger ("Recording uploaded to S3: " +:+ s3Key) ;;
      js_return result)
    (λ error,
      logger "Failed to upload recording to S3" ;;
      at_ ← Date_now;
      js_return (failure streamKey at_ error))).

Definition S3_deleteRecording (this : S3Storage) (s3Key : string)
  : World → Settled bool * World :=
  async (
    try_catch (
      await (s3_deleteObject (bucketName this) s3Key) ;;
      logger ("Recording deleted from S3: " +:+ s3Key) ;;
      js_return true)
    (λ error,
      logger ("Failed to delete recording from S3: " +:+ s3Key) ;;
      js_return false)).

(** *** base-storage.ts and storage-factory.ts

    The two subclasses of the abstract class [BaseStorage]; a call of one of
    its abstract methods is dispatched on the class of the instance. *)

Inductive BaseStorage :=
| Local (this : LocalStorage)
| S3 (this : S3Storage).

Definition saveRecording (storage : BaseStorage)
    (tempFilePath streamKey : string) (metadata : PartialMetadata)
  : World → Settled IStorageResult * World :=
  match storage with
  | Local this => Local_saveRecording this tempFilePath streamKey metadata
  | S3 this => S3_saveRecording this tempFilePath streamKey metadata
  end.

Definition deleteRecording (storage : BaseStorage) (identifier : string)
  : World → Settled bool * World :=
  match storage with
  | Local this => Local_deleteRecording this identifier
  | S3 this => S3_deleteRecording this identifier
  end.

(** [StorageFactory.createStorage()] *)
Definition createStorage : Js World BaseStorage BaseStorage :=
  let storageType := interpolate (js_or (getenv "STORAGE_TYPE") (Some "local")) in
  let lower := toLowerCase storageType in
  if String.eqb lower "local" then
    logger "Using Local Storage" ;;
    this ← LocalStorage_new; js_return (Local this)
  else if String.eqb lower "s3" then
    logger "Using AWS S3 Storage" ;;
    this ← S3Storage_new; js_return (S3 this)
  else
    logger ("Unknown storage type: " +:+ storageType +:+ ", defaulting to local") ;;
    this ← LocalStorage_new; js_return (Local this).

End Classes.

(** *** The query methods of the two classes *)

(** [s.startsWith(prefix)] *)
Definition startsWith (s prefix : string) : bool :=
  bool_decide (is_Some (strip prefix s)).

(** [s.endsWith(suffix)] *)
Fixpoint endsWith (s suffix : string) : bool :=
  String.eqb s suffix ||
  match s with
  | EmptyString => false
  | String _ s' => endsWith s' suffix
  end.

(** [s.split(sep)[0]]: what precedes the first separator *)
Fixpoint first_segment (sep : ascii) (s : string) : string :=
  match s with
  | EmptyString => EmptyString
  | String c s' =>
      if Ascii.eqb c sep then EmptyString else String c (first_segment sep s')
  end.

(** [recordings.sort((a, b) => b.uploadTime.getTime() - a.uploadTime.getTime())]:
    newest first, recordings of the same time in the order they had (the
    sort of the runtime is stable). *)
Fixpoint insert_recording (x : IStorageMetadata) (l : list IStorageMetadata)
  : list IStorageMetadata :=
  match l with
  | [] => [x]
  | y :: l' =>
      if Z.leb (uploadTime y) (uploadTime x) then x :: l
      else y :: insert_recording x l'
  end.

Definition sort_recordings (l : list IStorageMetadata) : list IStorageMetadata :=
  foldr insert_recording [] l.

(** the [streamKey] filter of [listRecordings]: [!streamKey ||
    file.startsWith(streamKey)] *)
Definition matches_filter (streamKey : option string) (file : string) : bool :=
  match streamKey with
  | Some k => negb (truthy (Some k)) || startsWith file k
  | None => true
  end.

(** what [LocalStorage.listRecordings] pushes for [file] *)
Definition local_recording (file : string) (stats : Stats) : IStorageMetadata :=
  {| streamKey := first_segment "_" file;
     fileName := file;
     fileSize := size stats;
     duration := None; quality := None; thumbnailPath := None;
     uploadTime := birthtime stats |}.

(** One turn of the loop of [LocalStorage.listRecordings]; [recordings] is
    the array built so far. *)
Definition list_step {R} (this : LocalStorage) (streamKey : option string)
    (file : string) (recordings : list IStorageMetadata)
  : Js World R (list IStorageMetadata) :=
  if endsWith file ".flv" then
    if matches_filter streamKey file then
      let filePath := path_join (recordingsPath this) file in
      stats ← await (fs_stat filePath);
      mret (recordings ++ [local_recording file stats])%list
    else mret recordings
  else mret recordings.

Fixpoint list_loop {R} (this : LocalStorage) (streamKey : option string)
    (files : list string) (recordings : list IStorageMetadata)
  : Js World R (list IStorageMetadata) :=
  match files with
  | [] => mret recordings
  | file :: files' =>
      recordings ← list_step this streamKey file recordings;
      list_loop this streamKey files' recordings
  end.

Definition Local_listRecordings (this : LocalStorage) (streamKey : option string)
  : World → Settled (list IStorageMetadata) * World :=
  async (
    try_catch (
      files ← await (fs_readdir (recordingsPath this));
      recordings ← list_loop this streamKey files [];
      js_return (sort_recordings recordings))
    (λ error,
      logger "Failed to list recordings" ;;
      js_return [])).

Record StorageInfo := { used : Z; available : Z }.

(** [for (const file of files) { used += stats.size }] *)
Fixpoint usage_loop {R} (this : LocalStorage) (files : list string) (used : Z)
  : Js World R Z :=
  match files with
  | [] => mret used
  | file :: files' =>
      stats ← await (fs_stat (path_join (recordingsPath this) file));
      usage_loop this files' (used + size stats)
  end.

Definition Local_getStorageInfo (this : LocalStorage)
  : World → Settled StorageInfo * World :=
  async (
    try_catch (
      files ← await (fs_readdir (recordingsPath this));
      used ← usage_loop this files 0;
      let available := 100 * 1024 * 1024 * 1024 in
      js_return {| used := used; available := available |})
    (λ error,
      logger "Failed to get storage info" ;;
      js_return {| used := 0; available := 0 |})).

(** A page of [s3.listObjectsV2]: keys with their objects, and the token to
    ask for the next page with when the listing is not complete. The token
    is opaque to the caller; here it is the number of keys listed so far. *)
Record ListObjectsV2Output := {
  Contents : list (string * S3Object);
  NextContinuationToken : option nat;
}.

(** [MaxKeys] when the request does not give it *)
Definition MaxKeys_default : nat := 1000.

(** the objects of a bucket under [prefix], in one fixed enumeration (the
    store lists keys in their binary order; the sum [getStorageInfo] takes
    over the pages does not depend on the order) *)
Definition listing (prefix : string) (objs : gmap string S3Object)
  : list (string * S3Object) :=
  List.filter (λ kv, startsWith kv.1 prefix) (map_to_list objs).

Definition s3_listObjectsV2 (bucket prefix : string)
    (ContinuationToken : option nat) (MaxKeys : nat)
  : World → Settled ListObjectsV2Output * World :=
  λ w, match s3_failure w with
       | Some e => (Rejected e, w)
       | None =>
           match buckets w !! bucket with
           | None => (Rejected "NoSuchBucket", w)
           | Some objs =>
               let all := listing prefix objs in
               let start := default 0%nat ContinuationToken in
               let stop := (start + MaxKeys)%nat in
               (Fulfilled
                  {| Contents := take MaxKeys (drop start all);
                     NextContinuationToken :=
                       if Nat.ltb stop (length all) then Some stop else None |},
                w)
           end
       end.

(** [for (const object of data.Contents || []) { used += object.Size || 0 }] *)
Definition add_sizes (used : Z) (contents : list (string * S3Object)) : Z :=
  fold_left (λ u o, u + ContentLength o.2) contents used.

(** The [do { ... } while (continuationToken)] of [S3Storage.getStorageInfo].
    [turns] bounds the number of pages asked for; [None] is a loop that has
    not come to its end within that bound. *)
Fixpoint pages_loop {R} (turns : nat) (this : S3Storage) (used : Z)
    (continuationToken : option nat) : Js World R (option Z) :=
  match turns with
  | O => mret None
  | S turns' =>
      data ← await (s3_listObjectsV2 (bucketName this) (recordingsPrefix this)
                      continuationToken MaxKeys_default);
      let used := add_sizes used (Contents data) in
      match NextContinuationToken data with
      | Some token => pages_loop turns' this used (Some token)
      | None => mret (Some used)
      end
  end.

(** [Number.MAX_SAFE_INTEGER] *)
Definition MAX_SAFE_INTEGER : Z := 2 ^ 53 - 1.

Definition S3_getStorageInfo (turns : nat) (this : S3Storage)
  : World → Settled (option StorageInfo) * World :=
  async (
    try_catch (
      used ← pages_loop turns this 0 None;
      let available := MAX_SAFE_INTEGER in
      js_return ((λ used, {| used := used; available := available |}) <$> used))
    (λ error,
      logger "Failed to get S3 storage info" ;;
      js_return (Some {| used := 0; available := 0 |}))).

Section SignedUrls.

(** [s3.getSignedUrlPromise("getObject", { Bucket, Key, Expires })], of the
    AWS SDK *)
Variable getSignedUrlPromise : string → string → Z → Settled string.

Definition S3_getRecordingUrl (this : S3Storage) (s3Key : string)
    (expiresIn : option Z) : World → Settled string * World :=
  async (
    try_catch (
      when (truthy (cloudFrontDomain this)) (
        js_return ("https://" +:+ default "undefined" (cloudFrontDomain this)
                   +:+ "/" +:+ s3Key)) ;;
      let Expires := default 3600 expiresIn in
      await (λ w, (getSignedUrlPromise (bucketName this) s3Key Expires, w)))
    (λ error,
      logger ("Failed to get recording URL: " +:+ s3Key) ;;
      js_throw error)).

End SignedUrls.

(** *** Vocabulary of the properties *)

(** the size of what a backend stores under an identifier: the file of that
    path, the object of that key in the configured bucket *)
Definition persisted (storage : BaseStorage) (w : World) (identifier : string)
  : option Z :=
  match storage with
  | Local _ => size <$> lookup_path identifier (files w)
  | S3 this =>
      objs ← buckets w !! bucketName this; ContentLength <$> objs !! identifier
  end.

(** the result a settled [saveRecording] was fulfilled with *)
Definition result_of (p : Settled IStorageResult) : IStorageResult :=
  match p with
  | Fulfilled r => r
  | Rejected e => failure "" 0 e
  end.

(** [needle] occurs in [hay] *)
Definition mentions (needle hay : string) : Prop :=
  ∃ before after, hay = before +:+ needle +:+ after.

(** [cutoffTime] of [cleanupOldRecordings] *)
Definition cutoffTime (w : World) (maxAgeHours : Z) : Z :=
  now w - maxAgeHours * 60 * 60 * 1000.

Definition is_old (cutoff : Z) (fs : list (string * Stats)) (dir n : string) : bool :=
  match lookup_path (path_join dir n) fs with
  | Some st => Z.ltb (birthtime st) cutoff
  | None => false
  end.

(** the entries of the recordings directory that a sweep takes for old *)
Definition old_entries (this : LocalStorage) (w : World) (maxAgeHours : Z)
  : list string :=
  List.filter (is_old (cutoffTime w maxAgeHours) (files w) (recordingsPath this))
    (dir_entries (recordingsPath this) (files w)).

(** the file system without the entries [olds] of [dir] and what is below them *)
Definition swept (dir : string) (olds : list string) (fs : list (string * Stats))
  : list (string * Stats) :=
  List.filter (λ e, negb (existsb (λ n, under (path_join dir n) e.1) olds)) fs.

(** Nothing stands in the way of a sweep: no path is listed twice, the
    recordings directory exists, and neither an entry of it nor a path below
    an entry is protected. *)
Definition sweepable (this : LocalStorage) (w : World) : Prop :=
  NoDup (files w).*1 ∧
  is_Some (lookup_path (recordingsPath this) (files w)) ∧
  ∀ n, n ∈ dir_entries (recordingsPath this) (files w) →
       blocked (path_join (recordingsPath this) n) w = None.

(** the character [c] occurs in [s] *)
Fixpoint has_char (c : ascii) (s : string) : bool :=
  match s with
  | EmptyString => false
  | String c' s' => Ascii.eqb c' c || has_char c s'
  end.

(** a file name as a directory holds it: one non-empty segment without a
    NUL character, other than [.] and [..]. For such a name [path.join] of a
    directory and the name is the entry of that name in the directory, which
    is the path [path_join] gives. *)
Definition plain_name (n : string) : bool :=
  is_name n && negb (has_char "000" n)
  && negb (String.eqb n ".") && negb (String.eqb n "..").

(** the list runs from the newest recording to the oldest *)
Definition newest_first (l : list IStorageMetadata) : Prop :=
  ∀ (i j : nat) a b, (i < j)%nat → l !! i = Some a → l !! j = Some b →
    (uploadTime b ≤ uploadTime a)%Z.

(** the [.flv] entries of [dir] that pass the [streamKey] filter, each with
    the name, the size and the creation time the file system has for it *)
Definition recordings_in (dir : string) (streamKey : option string)
    (fs : list (string * Stats)) : list IStorageMetadata :=
  omap (λ n, local_recording n <$> lookup_path (path_join dir n) fs)
    (List.filter (λ n, endsWith n ".flv" && matches_filter streamKey n)
       (dir_entries dir fs)).

(** the sizes of the entries of [dir] itself, added up; what lies deeper is
    left out *)
Definition direct_size (dir : string) (fs : list (string * Stats)) : Z :=
  foldr (λ e total,
           if bool_decide (is_Some (entry_of dir e.1)) then size e.2 + total
           else total) 0 fs.

(** the sizes of the objects of a bucket whose key starts with [prefix],
    added up *)
Definition stored_size (prefix : string) (objs : gmap string S3Object) : Z :=
  map_fold (λ key obj total,
              if startsWith key prefix then ContentLength obj + total else total)
    0 objs.

(** a list in which no recording is followed by a newer one *)
Fixpoint descending (l : list IStorageMetadata) : Prop :=
  match l with
  | [] => True
  | x :: l' => Forall (λ y, (uploadTime y ≤ uploadTime x)%Z) l' ∧ descending l'
  end.

(** the file name both backends give a recording of [key] saved at [t] *)
Definition saved_name (toISOString : Z → string) (key : string) (t : Z) : string :=
  key +:+ "_" +:+ replace_colon_dot (toISOString t) +:+ ".flv".

(** the object key the remote backend stores it under *)
Definition saved_key (toISOString : Z → string) (this : S3Storage)
    (key : string) (t : Z) : string :=
  recordingsPrefix this +:+ key +:+ "/" +:+ saved_name toISOString key t.

(** *** Sample worlds *)

Definition fixed_clock (t : Z) : string := "2025-11-02T10:00:00.000Z".

Definition media : LocalStorage :=
  {| recordingsPath := "./media/recordings"; tempPath := "./media/temp" |}.

Definition recordings_bucket : S3Storage :=
  {| bucketName := "livestream-recordings";
     recordingsPrefix := "recordings/";
     cloudFrontDomain := None |}.

Definition ten_days : Z := 10 * 24 * 60 * 60 * 1000.

(** one recording created ten days ago, one created now *)
Definition two_recordings : World :=
  {| files := [ ("./media/recordings", {| size := 0; birthtime := 0 |});
                ("./media/recordings/old.flv",
                 {| size := 10; birthtime := 1000000000 - ten_days |});
                ("./media/recordings/new.flv",
                 {| size := 20; birthtime := 1000000000 |}) ];
     readonly := [];
     buckets := ∅; s3_failure := None; unhandledRejections := [];
     now := 1000000000 |}.


(** a recordings directory eleven days after [initializeDirectories], with a
    thumbnail, a text file and a fresh recording; [protected] lists the paths
    that cannot be unlinked *)
Definition mixed_directory (protected : list string) : World :=
  {| files := [ ("./media/recordings", {| size := 0; birthtime := 0 |});
                ("./media/temp", {| size := 0; birthtime := 0 |});
                ("./media/recordings/thumbnails", {| size := 0; birthtime := 0 |});
                ("./media/recordings/thumbnails/abc.jpg", {| size := 7; birthtime := 50 |});
                ("./media/recordings/notes.txt", {| size := 3; birthtime := 100 |});
                ("./media/recordings/new.flv",
                 {| size := 20; birthtime := 1000000000 |}) ];
     readonly := protected;
     buckets := ∅; s3_failure := None; unhandledRejections := [];
     now := 1000000000 |}.

(** a finished capture in the temp directory, an empty bucket; [outage]
    is the state of the object store *)
Definition capture_ready (outage : option string) : World :=
  {| files := [ ("./media/recordings", {| size := 0; birthtime := 0 |});
                ("./media/temp/abc123.flv", {| size := 10; birthtime := 5 |}) ];
     readonly := [];
     buckets := {[ "livestream-recordings" := ∅ ]};
     s3_failure := outage; unhandledRejections := [];
     now := 1000 |}.

(** the same capture, protected against deletion *)
Definition locked_capture : World :=
  {| files := [ ("./media/recordings", {| size := 0; birthtime := 0 |});
                ("./media/temp/abc123.flv", {| size := 10; birthtime := 5 |}) ];
     readonly := ["./media/temp/abc123.flv"];
     buckets := {[ "livestream-recordings" := ∅ ]};
     s3_failure := None; unhandledRejections := [];
     now := 1000 |}.

(** the bucket behind a CloudFront distribution *)
Definition cdn_bucket : S3Storage :=
  {| bucketName := "livestream-recordings";
     recordingsPrefix := "recordings/";
     cloudFrontDomain := Some "cdn.example.com" |}.

Definition flv_object (ContentLength : Z) : S3Object :=
  {| ContentLength := ContentLength; ContentType := "video/x-flv";
     Metadata := ∅; StorageClass := "STANDARD_IA";
     ServerSideEncryption := "AES256" |}.

(** two recordings under the prefix, one object outside of it *)
Definition two_objects : World :=
  {| files := []; readonly := [];
     buckets :=
       {[ "livestream-recordings" :=
            {[ "recordings/abc/abc_1.flv" := flv_object 10;
               "recordings/xyz/xyz_1.flv" := flv_object 20;
               "thumbnails/abc.jpg" := flv_object 5 ]} ]};
     s3_failure := None; unhandledRejections := [];
     now := 1000 |}.

End Storage.

(** ** The load-test viewer (loadtest/viewer_real.js) *)

Module Viewer.

(** What the [data] listener of one viewer keeps between two chunks:
    [buffer] and [headerParsed] are the variables of the source; [tags]
    lists the slices [tag] the loop has cut so far and [waits] counts the
    calls of [Atomics.wait]. *)
Record Viewer := {
  buffer : list Byte.byte;
  headerParsed : bool;
  tags : list (list Byte.byte);
  waits : nat;
}.

(** [buffer[i]], read where the index is within the buffer *)
Definition at_ (buffer : list Byte.byte) (i : nat) : Z :=
  Z.of_N (Byte.to_N (nth i buffer Byte.x00)).

(** [(buffer[1] << 16) | (buffer[2] << 8) | buffer[3]] *)
Definition dataSize (buffer : list Byte.byte) : Z :=
  Z.lor (Z.lor (Z.shiftl (at_ buffer 1) 16) (Z.shiftl (at_ buffer 2) 8))
        (at_ buffer 3).

Definition totalTagSize (buffer : list Byte.byte) : Z :=
  11 + dataSize buffer + 4.

(** [(tag[11] & 0xf0) >> 4] *)
Definition frameType (tag : list Byte.byte) : Z :=
  Z.shiftr (Z.land (at_ tag 11) 240) 4.

(** The [while (buffer.length >= 15)] loop, for at most [turns] turns. *)
Fixpoint tags_loop (turns : nat) (v : Viewer) : Viewer :=
  match turns with
  | O => v
  | S turns' =>
      if Nat.leb 15 (length (buffer v)) then
        let tagType := at_ (buffer v) 0 in
        let totalTagSize := totalTagSize (buffer v) in
        if Z.ltb (Z.of_nat (length (buffer v))) totalTagSize then v
        else
          let tag := take (Z.to_nat totalTagSize) (buffer v) in
          let waits :=
            if Z.eqb tagType 9 && Z.eqb (frameType tag) 1
            then S (waits v) else waits v in
          tags_loop turns'
            {| buffer := drop (Z.to_nat totalTagSize) (buffer v);
               headerParsed := headerParsed v;
               tags := (tags v ++ [tag])%list;
               waits := waits |}
      else v
  end.

(** [res.on("data", (chunk) => { ... })].  Every turn of the loop takes at
    least 15 bytes off the buffer, so the loop has come to its end before
    [length buffer] turns. *)
Definition on_data (chunk : list Byte.byte) (v : Viewer) : Viewer :=
  let buffer := (buffer v ++ chunk)%list in
  let v :=
    if negb (headerParsed v) && Nat.leb 13 (length buffer) then
      {| buffer := drop 13 buffer; headerParsed := true;
         tags := tags v; waits := waits v |}
    else
      {| buffer := buffer; headerParsed := headerParsed v;
         tags := tags v; waits := waits v |} in
  tags_loop (length (Viewer.buffer v)) v.

(** *** Vocabulary of the properties *)

(** the viewer when the response arrives *)
Definition connected : Viewer :=
  {| buffer := []; headerParsed := false; tags := []; waits := 0 |}.

(** the chunks of the response, handed to the listener one by one *)
Definition receive (chunks : list (list Byte.byte)) (v : Viewer) : Viewer :=
  foldl (λ v chunk, on_data chunk v) v chunks.

(** the loop has nothing to take from the buffer: fewer than 15 bytes, or a
    tag that has not arrived in full *)
Definition starved (buffer : list Byte.byte) : Prop :=
  (length buffer < 15)%nat ∨ (Z.of_nat (length buffer) < totalTagSize buffer)%Z.

(** a video tag that carries a key frame *)
Definition is_key_frame (tag : list Byte.byte) : bool :=
  Z.eqb (at_ tag 0) 9 && Z.eqb (Z.of_N (Byte.to_N (nth 11 tag Byte.x00)) / 16) 1.

(** a tag as the FLV format frames it: eleven bytes of tag header, the
    payload, whose length the bytes 1 to 3 give as a big-endian number, and
    the four bytes of the size field that follows *)
Definition well_cut (tag : list Byte.byte) : Prop :=
  Z.of_nat (length tag) =
    (11 + (65536 * at_ tag 1 + 256 * at_ tag 2 + at_ tag 3) + 4)%Z.

(** the buffer starts with a tag that has arrived in full *)
Definition complete (buffer : list Byte.byte) : bool :=
  Nat.leb 15 (length buffer) &&
  negb (Z.ltb (Z.of_nat (length buffer)) (totalTagSize buffer)).

(** the viewer after one turn of the loop that does not leave it *)
Definition take_tag (v : Viewer) : Viewer :=
  let n := Z.to_nat (totalTagSize (buffer v)) in
  let tag := take n (buffer v) in
  {| buffer := drop n (buffer v);
     headerParsed := headerParsed v;
     tags := (tags v ++ [tag])%list;
     waits := if Z.eqb (at_ (buffer v) 0) 9 && Z.eqb (frameType tag) 1
              then S (waits v) else waits v |}.

(** [buffer = Buffer.concat([buffer, chunk])] *)
Definition extend (v : Viewer) (chunk : list Byte.byte) : Viewer :=
  {| buffer := (buffer v ++ chunk)%list; headerParsed := headerParsed v;
     tags := tags v; waits := waits v |}.

(** the loop, run to its end *)
Definition drain (v : Viewer) : Viewer := tags_loop (length (buffer v)) v.

(** *** Ramp-up *)

Definition MAX_VIEWERS : nat := 200.
Definition RAMP_STEP : nat := 20.

(** The globals of the script: [activeViewers], the ids of the viewers whose
    request has been pushed on [conns], and the number of times [ramp] has
    waited for [RAMP_INTERVAL]. *)
Record LoadTest := {
  activeViewers : nat;
  conns : list nat;
  intervals : nat;
}.

(** [for (let i = 0; i < RAMP_STEP; i++) { ... }], with [turns] turns to go *)
Fixpoint ramp_step (turns : nat) (t : LoadTest) : LoadTest :=
  match turns with
  | O => t
  | S turns' =>
      if Nat.leb MAX_VIEWERS (activeViewers t) then t
      else ramp_step turns'
             {| activeViewers := S (activeViewers t);
                conns := (conns t ++ [activeViewers t])%list;
                intervals := intervals t |}
  end.

(** [ramp()], for at most [turns] turns of its [while] loop; [None] is a
    loop that has not come to its end within that bound. *)
Fixpoint ramp (turns : nat) (t : LoadTest) : option LoadTest :=
  match turns with
  | O => None
  | S turns' =>
      if Nat.ltb (activeViewers t) MAX_VIEWERS then
        let t := ramp_step RAMP_STEP t in
        ramp turns' {| activeViewers := activeViewers t; conns := conns t;
                       intervals := S (intervals t) |}
      else Some t
  end.

(** *** A sample response *)

(** the FLV header with the size field after it, a video tag with a
    one-byte payload that starts a key frame, and the first two bytes of an
    audio tag *)
Definition sample_header : list Byte.byte :=
  [ Byte.x46; Byte.x4c; Byte.x56; Byte.x01; Byte.x05;
    Byte.x00; Byte.x00; Byte.x00; Byte.x09;
    Byte.x00; Byte.x00; Byte.x00; Byte.x00 ].

Definition sample_key_frame : list Byte.byte :=
  [ Byte.x09; Byte.x00; Byte.x00; Byte.x01;
    Byte.x00; Byte.x00; Byte.x00; Byte.x00;
    Byte.x00; Byte.x00; Byte.x00;
    Byte.x17;
    Byte.x00; Byte.x00; Byte.x00; Byte.x0c ].

Definition sample_stream : list Byte.byte :=
  (sample_header ++ sample_key_frame ++ [Byte.x08; Byte.x00])%list.

End Viewer.

(** * Properties *)

(** ** Strings, truthiness and the statement monad *)

Lemma truthy_Some (v : option string) :
  truthy v = true ↔ ∃ s, v = Some s ∧ s ≠ "".
Proof.
  destruct v as [s|]; simpl.
  - rewrite negb_true_iff, String.eqb_neq.
    split; [eauto | intros (? & [= <-] & ?); done].
  - split; [done | intros (? & ? & ?); done].
Qed.

Lemma truthy_nonempty (s : string) : s ≠ "" → truthy (Some s) = true.
Proof. intros H. apply truthy_Some. eauto. Qed.

Lemma eqb_empty (s : string) : s ≠ "" → String.eqb s "" = false.
Proof. by intros; apply String.eqb_neq. Qed.

Lemma app_cons (a : ascii) (s t : string) : String a s +:+ t = String a (s +:+ t).
Proof. reflexivity. Qed.

Lemma app_empty_r (a : string) : a +:+ "" = a.
Proof. induction a as [|x a IH]; [done|]. by rewrite app_cons, IH. Qed.

Lemma app_assoc_str (a b c : string) : (a +:+ b) +:+ c = a +:+ (b +:+ c).
Proof. induction a as [|x a IH]; [done|]. by rewrite !app_cons, IH. Qed.

Lemma has_slash_app (a b : string) : has_slash (a +:+ "/" +:+ b) = true.
Proof.
  induction a as [|x a IH]; [done|].
  rewrite app_cons. simpl. rewrite IH. apply orb_true_r.
Qed.

Ltac js_unfold :=
  unfold async, try_catch, await, when, logger, skip, js_return, js_throw,
    js_get, js_modify, mbind, mret, Js_bind, Js_ret in *.

(** ** Session registry *)

Module RegistryFacts.
Import Registry.

Lemma split_no_slash (s : string) : has_slash s = false → split s = [s].
Proof.
  induction s as [|c s IH]; simpl; [done|].
  intros [Hc Hs]%orb_false_iff. rewrite Hc. by rewrite IH.
Qed.

(** The stream key of a publish path is its last segment. *)
Lemma stream_key_of_path (app key : string) :
  has_slash key = false → pop (split (app +:+ "/" +:+ key)) = Some key.
Proof.
  intros Hkey.
  assert (∃ x l, split (app +:+ "/" +:+ key) = ((x :: l) ++ [key])%list)
    as (x & l & ->).
  { induction app as [|c app (x & l & IH)].
    - exists "", []. change ("" +:+ "/" +:+ key) with (String "/" key).
      simpl. by rewrite split_no_slash.
    - rewrite app_cons. simpl. rewrite IH.
      destruct (Ascii.eqb c "/"); simpl.
      + by exists "", (x :: l).
      + by exists (String c x), l. }
  unfold pop. apply last_snoc.
Qed.

Lemma prePublish_valid (srv : RTMPServer) (id path key : string) :
  pop (split path) = Some key → key ≠ "" →
  prePublish id path srv =
    (Fulfilled tt, {| sessionMap := <[key := id]> (sessionMap srv);
                      rejected := rejected srv |}).
Proof.
  intros Hkey Hne. unfold prePublish. rewrite Hkey.
  unfold sessionMap_set. js_unfold. by rewrite (truthy_nonempty key Hne).
Qed.

Lemma donePublish_key (srv : RTMPServer) (id path key : string) :
  pop (split path) = Some key →
  donePublish id path srv =
    (Fulfilled tt, {| sessionMap := delete key (sessionMap srv);
                      rejected := rejected srv |}).
Proof.
  intros Hkey. unfold donePublish. rewrite Hkey.
  unfold sessionMap_delete. by js_unfold.
Qed.

(** C9: for a publish path whose stream key is not empty, [prePublish]
    followed by [donePublish] leaves the session map without an entry for
    the key, and a further [donePublish] changes nothing and raises nothing. *)
Theorem register_then_unregister
    (srv : RTMPServer) (id id' id'' StreamPath streamKey : string) :
  pop (split StreamPath) = Some streamKey →
  streamKey ≠ "" →
  let registered := (prePublish id StreamPath srv).2 in
  let unregistered := (donePublish id' StreamPath registered).2 in
  sessionMap registered !! streamKey = Some id ∧
  sessionMap unregistered !! streamKey = None ∧
  donePublish id'' StreamPath unregistered = (Fulfilled tt, unregistered).
Proof.
  intros Hkey Hne registered unregistered.
  subst registered unregistered.
  rewrite (prePublish_valid _ _ _ _ Hkey Hne); simpl.
  rewrite !(donePublish_key _ _ _ _ Hkey); simpl.
  split_and!.
  - apply lookup_insert_eq.
  - apply lookup_delete_eq.
  - by rewrite delete_delete_eq.
Qed.

Lemma register_then_unregister_witness :
  let srv := {| sessionMap := {[ "other" := "7" ]}; rejected := [] |} in
  let registered := (prePublish "12" "/live/abc123" srv).2 in
  let unregistered := (donePublish "12" "/live/abc123" registered).2 in
  sessionMap registered !! "abc123" = Some "12" ∧
  sessionMap unregistered !! "abc123" = None ∧
  donePublish "12" "/live/abc123" unregistered = (Fulfilled tt, unregistered).
Proof.
  apply (register_then_unregister _ "12" "12" "12" "/live/abc123" "abc123").
  - reflexivity.
  - discriminate.
Defined.

(** *** The listeners over any sequence of events *)

Lemma split_cons (s : string) : ∃ seg segs, split s = seg :: segs.
Proof.
  induction s as [|c s (seg & segs & IH)]; simpl; [by eauto|].
  destruct (Ascii.eqb c "/"); [by eauto|]. rewrite IH. eauto.
Qed.

Lemma split_segments (s : string) :
  Forall (λ seg, has_slash seg = false) (split s).
Proof.
  induction s as [|c s IH]; simpl; [by repeat constructor|].
  destruct (Ascii.eqb c "/") eqn:Hc; [by constructor|].
  destruct (split s) as [|seg segs].
  { repeat constructor. simpl. by rewrite Hc. }
  inversion IH; subst. constructor; [|done]. simpl. by rewrite Hc.
Qed.

Lemma stream_key_no_slash (path key : string) :
  pop (split path) = Some key → has_slash key = false.
Proof.
  unfold pop. intros Hlast.
  pose proof (split_segments path) as Hall.
  rewrite Forall_forall in Hall. apply Hall.
  apply last_Some in Hlast as [l' ->].
  apply elem_of_app. right. by apply list_elem_of_singleton.
Qed.

Lemma pop_split_is_Some (path : string) : is_Some (pop (split path)).
Proof.
  destruct (split_cons path) as (seg & segs & ->). unfold pop.
  by apply last_is_Some.
Qed.

Lemma prePublish_empty (srv : RTMPServer) (id path : string) :
  pop (split path) = Some "" →
  prePublish id path srv =
    (Fulfilled tt, {| sessionMap := sessionMap srv;
                      rejected := rejected srv ++ [id] |}).
Proof.
  intros Hkey. unfold prePublish. rewrite Hkey.
  unfold session_reject. by js_unfold.
Qed.

(** what one event does to the server *)
Lemma emit_cases (e : Emitted) (srv : RTMPServer) :
  match e with
  | PrePublish id path =>
      (∃ key, pop (split path) = Some key ∧ key ≠ "" ∧
         sessionMap (emit e srv) = <[key := id]> (sessionMap srv) ∧
         rejected (emit e srv) = rejected srv) ∨
      (pop (split path) = Some "" ∧
         sessionMap (emit e srv) = sessionMap srv ∧
         rejected (emit e srv) = (rejected srv ++ [id])%list)
  | DonePublish id path =>
      ∃ key, pop (split path) = Some key ∧
         sessionMap (emit e srv) = delete key (sessionMap srv) ∧
         rejected (emit e srv) = rejected srv
  end.
Proof.
  destruct e as [id path|id path]; simpl;
    destruct (pop_split_is_Some path) as [key Hkey].
  - destruct (decide (key = "")) as [->|Hne].
    + right. by rewrite (prePublish_empty _ _ _ Hkey).
    + left. exists key. by rewrite (prePublish_valid _ _ _ _ Hkey Hne).
  - exists key. by rewrite (donePublish_key _ _ _ _ Hkey).
Qed.

Lemma emit_all_snoc (es : list Emitted) (e : Emitted) (srv : RTMPServer) :
  emit_all (es ++ [e]) srv = emit e (emit_all es srv).
Proof. unfold emit_all. by rewrite foldl_app. Qed.

(** X1: whatever [prePublish] and [donePublish] events the server has
    handled since it was constructed, every key of the session map is a
    stream key: it is not empty, it holds no slash, and the id stored under
    it is the id of a [prePublish] event whose path ends in that key. *)
Theorem sessionMap_holds_stream_keys (es : list Emitted) (key id : string) :
  sessionMap (emit_all es constructed) !! key = Some id →
  key ≠ "" ∧ has_slash key = false ∧
  ∃ path, PrePublish id path ∈ es ∧ pop (split path) = Some key.
Proof.
  revert key id. induction es as [|e es IH] using rev_ind; intros key id.
  - done.
  - rewrite emit_all_snoc.
    pose proof (emit_cases e (emit_all es constructed)) as Hcases.
    destruct e as [id' path|id' path].
    + destruct Hcases as [(k & Hk & Hne & -> & _)|(_ & -> & _)].
      * destruct (decide (key = k)) as [->|Hkk].
        -- rewrite lookup_insert_eq. intros [= ->].
           split_and!; [done|by eapply stream_key_no_slash|].
           exists path. split; [|done].
           apply elem_of_app. right. by apply list_elem_of_singleton.
        -- rewrite lookup_insert_ne by done. intros H.
           destruct (IH _ _ H) as (? & ? & p & ? & ?).
           split_and!; try done.
           exists p. split; [|done]. apply elem_of_app. by left.
      * intros H. destruct (IH _ _ H) as (? & ? & p & ? & ?).
        split_and!; try done.
        exists p. split; [|done]. apply elem_of_app. by left.
    + destruct Hcases as (k & Hk & -> & _).
      intros H. apply lookup_delete_Some in H as [_ H].
      destruct (IH _ _ H) as (? & ? & p & ? & ?).
      split_and!; try done.
      exists p. split; [|done]. apply elem_of_app. by left.
Qed.

Lemma sessionMap_holds_stream_keys_witness :
  let es := [PrePublish "1" "/live/abc"; PrePublish "2" "/live/";
             PrePublish "3" "/live/xyz"; DonePublish "3" "/live/xyz"] in
  "abc" ≠ "" ∧ has_slash "abc" = false ∧
  ∃ path, PrePublish "1" path ∈ es ∧ pop (split path) = Some "abc".
Proof.
  apply (sessionMap_holds_stream_keys _ "abc" "1"). vm_compute. reflexivity.
Defined.

(** X2: [prePublish] never rejects its promise. For a publish path
    [app/key], the session is refused, and the map left alone, exactly when
    [key] is empty (the path ends in a slash); otherwise the session id is
    stored under [key] and nothing is refused. *)
Theorem prePublish_refuses_empty_key (srv : RTMPServer) (id app key : string) :
  has_slash key = false →
  let srv' := (prePublish id (app +:+ "/" +:+ key) srv).2 in
  (prePublish id (app +:+ "/" +:+ key) srv).1 = Fulfilled tt ∧
  if decide (key = "")
  then sessionMap srv' = sessionMap srv ∧
       rejected srv' = (rejected srv ++ [id])%list
  else sessionMap srv' = <[key := id]> (sessionMap srv) ∧
       rejected srv' = rejected srv.
Proof.
  intros Hkey. simpl.
  pose proof (stream_key_of_path app key Hkey) as Hpop.
  destruct (decide (key = "")) as [->|Hne].
  - by rewrite (prePublish_empty _ _ _ Hpop).
  - by rewrite (prePublish_valid _ _ _ _ Hpop Hne).
Qed.

Lemma prePublish_refuses_empty_key_witness :
  (prePublish "7" ("/live" +:+ "/" +:+ "") constructed).1 = Fulfilled tt ∧
  sessionMap (prePublish "7" ("/live" +:+ "/" +:+ "") constructed).2 = ∅ ∧
  rejected (prePublish "7" ("/live" +:+ "/" +:+ "") constructed).2 = ["7"].
Proof.
  apply (prePublish_refuses_empty_key constructed "7" "/live" ""). reflexivity.
Defined.

(** X3: [donePublish] does not look at the session id. When a second
    session publishes under a key that is registered, its id replaces the
    first one, and the [donePublish] of the first session then removes the
    registration of the second. *)
Theorem stale_donePublish_unregisters (srv : RTMPServer)
    (old new path key : string) :
  pop (split path) = Some key → key ≠ "" →
  let republished := emit_all [PrePublish old path; PrePublish new path] srv in
  sessionMap republished !! key = Some new ∧
  sessionMap (emit (DonePublish old path) republished) !! key = None.
Proof.
  intros Hkey Hne. unfold emit_all. simpl.
  rewrite !(prePublish_valid _ _ _ _ Hkey Hne). simpl.
  rewrite (donePublish_key _ _ _ _ Hkey). simpl.
  split; [apply lookup_insert_eq | apply lookup_delete_eq].
Qed.

Lemma stale_donePublish_unregisters_witness :
  let republished :=
    emit_all [PrePublish "1" "/live/abc"; PrePublish "2" "/live/abc"] constructed in
  sessionMap republished !! "abc" = Some "2" ∧
  sessionMap (emit (DonePublish "1" "/live/abc") republished) !! "abc" = None.
Proof.
  apply (stale_donePublish_unregisters constructed "1" "2" "/live/abc" "abc").
  - reflexivity.
  - discriminate.
Defined.

End RegistryFacts.

(** ** Egress orchestration *)

Module EgressFacts.
Import Egress.

Ltac egress_unfold :=
  unfold track_published_guards, track_published_resumed, activeEgressMap_has, activeEgressMap_get, activeEgressMap_set,
    activeEgressMap_delete, egressClient_stopEgress,
    egressClient_startTrackCompositeEgress, roomClient_listParticipants,
    setTimeout, record in *.

Lemma count_snoc (p : Call → bool) (cs : list Call) (c : Call) :
  count p (cs ++ [c]) = (count p cs + (if p c then 1 else 0))%nat.
Proof.
  unfold count. rewrite List.filter_app, length_app. simpl.
  by destruct (p c).
Qed.

(** *** What a request leaves untouched *)





(** *** The [track_published] branch *)

Lemma webhook_video_published (lk : LiveKit) (s : Server) (ev : WebhookEvent)
    (R : string) (t : TrackInfo) :
  video_published R t ev → R ≠ "" →
  webhook lk (Fulfilled ev) s =
    match track_published lk R t s with
    | (Normal _, s') => (Fulfilled Json_ok, s')
    | (Return r, s') => (Fulfilled r, s')
    | (Throw e, s') => (Fulfilled (Status400 e), s')
    end.
Proof.
  intros (Hev & HR & Ht & _) Hne. apply eqb_empty in Hne.
  unfold webhook. js_unfold. simpl. rewrite Hev, HR, Ht, Hne. simpl.
  by destruct (track_published lk R t s) as [[] ?].
Qed.



Lemma track_published_abandons (lk : LiveKit) (s : Server) (R : string) (t : TrackInfo) :
  type t = 1 → activeEgressMap s !! R = None →
  incomplete lk (count is_query (calls s)) R t →
  track_published lk R t s =
    (Return Json_ok,
     {| activeEgressMap := activeEgressMap s;
        calls := calls s ++ queries lk (count is_query (calls s)) R |}).
Proof.
  intros Ht Hnone Hinc.
  unfold track_published. egress_unfold. js_unfold.
  rewrite Ht. simpl. rewrite Hnone. simpl.
  rewrite !count_snoc. simpl. rewrite !Nat.add_0_r.
  unfold incomplete, answer, queries in *.
  destruct (listParticipants lk (count is_query (calls s)) R) as [[|p ps]|e] eqn:H1;
    simpl; [| |done].
  - rewrite !count_snoc. simpl. rewrite !Nat.add_0_r, Nat.add_1_r.
    destruct (listParticipants lk (S (count is_query (calls s))) R)
      as [[|p ps]|e] eqn:H2; simpl; [| |done].
    + by rewrite <- !app_assoc.
    + rewrite <- !app_assoc. simpl.
      destruct (sid t) as [v|], (audio_sid p) as [a|]; simpl in *; try done.
      apply andb_false_iff in Hinc as [->| ->]; simpl; try done.
      by destruct (negb (negb (String.eqb v ""))).
  - rewrite <- !app_assoc. simpl.
    destruct (sid t) as [v|], (audio_sid p) as [a|]; simpl in *; try done.
    apply andb_false_iff in Hinc as [->| ->]; simpl; try done.
    by destruct (negb (negb (String.eqb v ""))).
Qed.

(** *** Start *)




(** Two deliveries of the same event whose handlers both pass the presence
    test before either records its job (the second request arrives while the
    first one waits at its first [await]) issue two start calls. *)
Lemma interleaved_handlers_start_twice :
  let t := {| type := 1; sid := Some "TR_video" |} in
  let guards1 := track_published_guards "room1" t idle in
  let guards2 := track_published_guards "room1" t guards1.2 in
  let resumed1 := track_published_resumed ready "room1" t guards2.2 in
  let resumed2 := track_published_resumed ready "room1" t resumed1.2 in
  guards1.1 = Normal tt ∧ guards2.1 = Normal tt ∧
  activeEgressMap resumed1.2 !! "room1" = Some "EG_1" ∧
  count is_start (calls resumed1.2) = 1%nat ∧
  count is_start (calls resumed2.2) = 2%nat.
Proof. vm_compute. done. Qed.

(** *** Abandon *)

(** C7 (amended): when the participant query of a video [track_published]
    event finds no participant, the handler waits once (1000 ms) and asks
    exactly once more; when the participant list it goes on with is empty,
    or its first participant has no audio track id, or the event carries no
    video track id, it abandons: no start call, no entry recorded,
    [{ ok: true }] as the response. A participant with a missing track id is
    not asked for again: the retry happens exactly when the first answer is
    empty. *)
Theorem abandon_after_bounded_retry (lk : LiveKit) (s : Server) (ev : WebhookEvent)
    (R : string) (t : TrackInfo) :
  video_published R t ev → R ≠ "" →
  activeEgressMap s !! R = None →
  let n := count is_query (calls s) in
  incomplete lk n R t →
  webhook lk (Fulfilled ev) s =
    (Fulfilled Json_ok,
     {| activeEgressMap := activeEgressMap s;
        calls := calls s ++ queries lk n R |}) ∧
  count is_start (queries lk n R) = 0%nat ∧
  (listParticipants lk n R = Fulfilled [] →
     queries lk n R = [SetTimeout 1200; ListParticipants R;
                       SetTimeout 1000; ListParticipants R]) ∧
  (listParticipants lk n R ≠ Fulfilled [] →
     queries lk n R = [SetTimeout 1200; ListParticipants R]).
Proof.
  intros Hev HR Hnone n Hinc.
  rewrite (webhook_video_published lk s ev R t Hev HR).
  destruct Hev as (_ & _ & _ & Ht).
  rewrite (track_published_abandons lk s R t Ht Hnone Hinc).
  unfold queries. split_and!; try done.
  - by destruct (listParticipants lk n R) as [[|]|].
  - by intros ->.
  - by destruct (listParticipants lk n R) as [[|]|].
Qed.

Lemma abandon_after_bounded_retry_witness :
  webhook empty_room (Fulfilled room1_video) idle =
    (Fulfilled Json_ok,
     {| activeEgressMap := ∅;
        calls := [] ++ queries empty_room 0 "room1" |}) ∧
  count is_start (queries empty_room 0 "room1") = 0%nat ∧
  (listParticipants empty_room 0 "room1" = Fulfilled [] →
     queries empty_room 0 "room1" =
       [SetTimeout 1200; ListParticipants "room1";
        SetTimeout 1000; ListParticipants "room1"]) ∧
  (listParticipants empty_room 0 "room1" ≠ Fulfilled [] →
     queries empty_room 0 "room1" = [SetTimeout 1200; ListParticipants "room1"]).
Proof.
  apply (abandon_after_bounded_retry empty_room idle room1_video "room1"
           {| type := 1; sid := Some "TR_video" |}).
  - repeat split.
  - discriminate.
  - reflexivity.
  - exact I.
Defined.

(** C7, as stated, fails for a publisher whose audio track id is missing:
    the handler asks once, does not wait and ask again, and abandons. *)
Lemma missing_audio_is_not_retried :
  let s1 := (webhook video_only (Fulfilled room1_video) idle).2 in
  incomplete video_only 0 "room1" {| type := 1; sid := Some "TR_video" |} ∧
  (webhook video_only (Fulfilled room1_video) idle).1 = Fulfilled Json_ok ∧
  calls s1 = [SetTimeout 1200; ListParticipants "room1"] ∧
  count is_query (calls s1) = 1%nat ∧
  count is_start (calls s1) = 0%nat.
Proof. vm_compute. done. Qed.

(** *** What every request keeps *)

(** One run of the [track_published] branch: the entries that are added
    were started, no entry is added under an empty name, and a run that
    throws has changed neither the map nor the number of starts and stops. *)
Lemma track_published_step (lk : LiveKit) (R : string) (t : TrackInfo) (s : Server) :
  R ≠ "" →
  let run := track_published lk R t s in
  let s' := run.2 in
  (size (activeEgressMap s') + count is_stop (calls s') + count is_start (calls s)
     ≤ size (activeEgressMap s) + count is_stop (calls s) + count is_start (calls s'))%nat ∧
  (∀ R', is_Some (activeEgressMap s' !! R') →
         is_Some (activeEgressMap s !! R') ∨ R' ≠ "") ∧
  (∀ e, run.1 = Throw e →
     activeEgressMap s' = activeEgressMap s ∧
     count is_start (calls s') = count is_start (calls s) ∧
     count is_stop (calls s') = count is_stop (calls s)) ∧
  (∀ r, run.1 = Return r → r = Json_ok).
Proof.
  intros HR. unfold track_published. egress_unfold. js_unfold. simpl.
  repeat (first [ progress simpl | case_match ]; simplify_eq; try done);
    rewrite ?count_snoc; simpl.
  all: split; [|split; [|split]].
  all: try (intros ? ?; by simplify_eq).
  all: try (intros ? ?; simplify_eq; try done; split_and!; try done; lia).
  all: try (intros R' HR'; destruct (decide (R' = R)) as [->|?]; [by right|];
            rewrite ?lookup_insert_ne in HR' by done; by left).
  all: try lia.
  all: rewrite map_size_insert_None; [lia|].
  all: match goal with H : bool_decide _ = false |- _ =>
         apply bool_decide_eq_false_1 in H; by apply eq_None_not_Some end.
Qed.

Lemma ingress_ended_step (lk : LiveKit) (info : option IngressInfo) (s : Server) :
  let run := ingress_ended lk info s in
  let s' := run.2 in
  (size (activeEgressMap s') + count is_stop (calls s') + count is_start (calls s)
     ≤ size (activeEgressMap s) + count is_stop (calls s) + count is_start (calls s'))%nat ∧
  (∀ R', is_Some (activeEgressMap s' !! R') → is_Some (activeEgressMap s !! R')) ∧
  (∀ e, run.1 ≠ Throw e) ∧ (∀ r, run.1 = Return r → r = Json_ok).
Proof.
  unfold ingress_ended. egress_unfold. js_unfold. simpl.
  destruct (ingress_room info) as [R|];
    [|simpl; split_and!; [done|done|done|by intros ? [= <-]]].
  repeat (first [ progress simpl | case_match ]; simplify_eq; try done);
    rewrite ?count_snoc; simpl.
  all: split; [|split; [|split]]; try done.
  all: try (intros R' [x [_ Hx]%lookup_delete_Some]; by eauto).
  all: try (intros ? ?; by simplify_eq).
  all: try lia.
  all: rewrite map_size_delete_Some by eauto.
  all: match goal with H : ?m !! _ = Some _ |- _ =>
         assert (size m ≠ 0%nat)
           by (apply map_size_non_empty_iff; intros Hemp;
               by rewrite Hemp, lookup_empty in H)
       end; lia.
Qed.

Lemma webhook_step (lk : LiveKit) (received : Settled WebhookEvent) (s : Server) :
  let run := webhook lk received s in
  let s' := run.2 in
  (size (activeEgressMap s') + count is_stop (calls s') + count is_start (calls s)
     ≤ size (activeEgressMap s) + count is_stop (calls s) + count is_start (calls s'))%nat ∧
  (∀ R', is_Some (activeEgressMap s' !! R') →
         is_Some (activeEgressMap s !! R') ∨ R' ≠ "") ∧
  ∃ resp, run.1 = Fulfilled resp ∧
    (∀ e, resp = Status400 e →
       activeEgressMap s' = activeEgressMap s ∧
       count is_start (calls s') = count is_start (calls s) ∧
       count is_stop (calls s') = count is_stop (calls s)).
Proof.
  unfold webhook. js_unfold.
  destruct received as [ev|e]; simpl; [|by eauto 10].
  destruct (String.eqb (event ev) "track_published") eqn:Htp; simpl.
  - apply String.eqb_eq in Htp.
    assert (String.eqb (event ev) "ingress_ended" = false) as Hie
      by (by rewrite Htp).
    destruct (event_room ev) as [R|], (track ev) as [t|]; simpl; try by eauto 10.
    destruct (String.eqb R "") eqn:HR; simpl; [by eauto 10|].
    apply String.eqb_neq in HR.
    pose proof (track_published_step lk R t s HR) as (Hsz & Hkeys & Hthrow & Hret).
    destruct (track_published lk R t s) as [c s'] eqn:Hrun. simpl in *.
    destruct c as [[]|r|e]; simpl; rewrite ?Hie; simpl.
    + split_and!; try done. exists Json_ok. by split.
    + split_and!; try done. exists r. split; [done|]. intros e ->.
      by specialize (Hret _ eq_refl).
    + split_and!; try done. exists (Status400 e). split; [done|].
      intros ? _. by apply (Hthrow e).
  - destruct (String.eqb (event ev) "ingress_ended") eqn:Hie; simpl; [|by eauto 10].
    pose proof (ingress_ended_step lk (ingressInfo ev) s)
      as (Hsz & Hkeys & Hthrow & Hret).
    destruct (ingress_ended lk (ingressInfo ev) s) as [c s'] eqn:Hrun. simpl in *.
    destruct c as [[]|r|e]; simpl.
    + split_and!; [done|by eauto|]. exists Json_ok. by split.
    + split_and!; [done|by eauto|]. exists r. split; [done|].
      intros e ->. by specialize (Hret _ eq_refl).
    + by destruct (Hthrow e).
Qed.

Lemma deliver_snoc (evs : list (LiveKit * Settled WebhookEvent))
    (lk : LiveKit) (received : Settled WebhookEvent) (s : Server) :
  deliver (evs ++ [(lk, received)]) s = (webhook lk received (deliver evs s)).2.
Proof.
  revert s. induction evs as [|[lk' r'] evs IH]; intros s; simpl; [done|].
  by rewrite IH.
Qed.

(** X4: the route answers every request, whatever the platform does: its
    promise is never rejected. When the answer is a 400 (the request did not
    verify, or a participant query failed), the request has neither started
    nor stopped a job, and the map is as it was. *)
Theorem webhook_always_answers (lk : LiveKit) (received : Settled WebhookEvent)
    (s : Server) :
  let s' := (webhook lk received s).2 in
  ∃ resp, (webhook lk received s).1 = Fulfilled resp ∧
    (∀ e, resp = Status400 e →
       activeEgressMap s' = activeEgressMap s ∧
       count is_start (calls s') = count is_start (calls s) ∧
       count is_stop (calls s') = count is_stop (calls s)).
Proof. by destruct (webhook_step lk received s) as (_ & _ & ?). Qed.

(** X5: after any sequence of webhook requests handled one after the other
    from the start of the server, every job recorded in the map and every
    job stopped has been started: the recorded jobs and the stop calls
    together are no more than the start calls; and no job is recorded under
    an empty room name. *)
Theorem recorded_jobs_were_started (evs : list (LiveKit * Settled WebhookEvent)) :
  let s := deliver evs idle in
  (size (activeEgressMap s) + count is_stop (calls s) ≤ count is_start (calls s))%nat ∧
  ∀ R, is_Some (activeEgressMap s !! R) → R ≠ "".
Proof.
  induction evs as [|[lk received] evs [IHsz IHkeys]] using rev_ind; simpl.
  - split; [done|]. intros R [? H]. by rewrite lookup_empty in H.
  - rewrite deliver_snoc.
    destruct (webhook_step lk received (deliver evs idle)) as (Hsz & Hkeys & _).
    split; [lia|]. intros R HR. destruct (Hkeys R HR); eauto.
Qed.

(** *** Stop *)

Lemma webhook_ingress_ended (lk : LiveKit) (s : Server) (ev : WebhookEvent)
    (R egressId : string) :
  event ev = "ingress_ended" → ended_room ev = Some R → R ≠ "" →
  activeEgressMap s !! R = Some egressId → egressId ≠ "" →
  webhook lk (Fulfilled ev) s =
    (Fulfilled Json_ok,
     {| activeEgressMap := delete R (activeEgressMap s);
        calls := calls s ++ [StopEgress egressId] |}).
Proof.
  intros Hev HR Hne Hid Hidne. unfold ended_room in HR.
  apply eqb_empty in Hne, Hidne.
  unfold webhook. js_unfold. simpl. rewrite Hev. simpl.
  unfold ingress_ended. rewrite HR.
  egress_unfold. js_unfold. simpl.
  rewrite Hne. simpl. rewrite Hid, Hidne. simpl.
  by destruct (stopEgress lk egressId).
Qed.

(** a request handled with a platform whose start answers carry a job id
    records no empty job id *)
Lemma webhook_ids (lk : LiveKit) (received : Settled WebhookEvent) (s : Server) :
  id_bearing lk →
  (∀ R egressId, activeEgressMap s !! R = Some egressId → egressId ≠ "") →
  ∀ R egressId, activeEgressMap (webhook lk received s).2 !! R = Some egressId →
    egressId ≠ "".
Proof.
  intros Hlk Hinv. unfold webhook, track_published, ingress_ended.
  egress_unfold. js_unfold.
  destruct received as [ev|e]; simpl; [|done].
  repeat (first [ progress simpl | case_match ]; simplify_eq; try done).
  all: try (match goal with
            | H1 : (event ?e =? "track_published") = true,
              H2 : (event ?e =? "ingress_ended") = true |- _ =>
                apply String.eqb_eq in H1; by rewrite H1 in H2
            end).
  all: intros R' id'.
  all: try (intros [[-> <-]|[_ ?]]%lookup_insert_Some; by eauto).
  all: try (intros [_ ?]%lookup_delete_Some; by eauto).
  all: try (by eauto).
Qed.

(** the entries of a state reached with such platforms: no empty room name,
    no empty job id *)
Lemma deliver_ids (evs : list (LiveKit * Settled WebhookEvent)) :
  Forall (λ request, id_bearing request.1) evs →
  let s := deliver evs idle in
  (∀ R, is_Some (activeEgressMap s !! R) → R ≠ "") ∧
  (∀ R egressId, activeEgressMap s !! R = Some egressId → egressId ≠ "").
Proof.
  induction evs as [|[lk received] evs IH] using rev_ind; simpl.
  - intros _. split; intros R; [intros [? H]|intros ? H]; by rewrite lookup_empty in H.
  - intros Hall. apply Forall_app in Hall as [Hevs Hlk].
    apply Forall_inv in Hlk. simpl in Hlk.
    destruct (IH Hevs) as [IHkeys IHids]. rewrite deliver_snoc.
    destruct (webhook_step lk received (deliver evs idle)) as (_ & Hkeys & _).
    split.
    + intros R HR. destruct (Hkeys R HR); eauto.
    + by apply webhook_ids.
Qed.

(** an [ingress_ended] for a room without an entry *)
Lemma webhook_ingress_ended_idle (lk : LiveKit) (s : Server) (ev : WebhookEvent)
    (R : string) :
  event ev = "ingress_ended" → ended_room ev = Some R →
  activeEgressMap s !! R = None →
  webhook lk (Fulfilled ev) s = (Fulfilled Json_ok, s).
Proof.
  intros Hev HR Hnone. unfold ended_room in HR.
  unfold webhook. js_unfold. simpl. rewrite Hev. simpl.
  unfold ingress_ended. rewrite HR.
  egress_unfold. js_unfold. simpl.
  destruct (String.eqb R ""); simpl; [done|]. by rewrite Hnone.
Qed.

(** C2: in every state the server reaches from its start by handling webhook
    requests one after the other, the platform answering each start call
    with the id of the job, an [ingress_ended] event for room [R] that finds
    an entry for [R] issues exactly one stop call, for the recorded job id,
    and removes the entry whether the stop call succeeds or fails; when
    there is no entry for [R] nothing is called and nothing changes. Both
    are answered with [{ ok: true }]. *)
Theorem ingress_ended_stops_once (evs : list (LiveKit * Settled WebhookEvent))
    (lk : LiveKit) (ev : WebhookEvent) (R : string) :
  Forall (λ request, id_bearing request.1) evs →
  event ev = "ingress_ended" → ended_room ev = Some R →
  let s := deliver evs idle in
  (∀ egressId, activeEgressMap s !! R = Some egressId →
     webhook lk (Fulfilled ev) s =
       (Fulfilled Json_ok,
        {| activeEgressMap := delete R (activeEgressMap s);
           calls := calls s ++ [StopEgress egressId] |})) ∧
  (activeEgressMap s !! R = None →
     webhook lk (Fulfilled ev) s = (Fulfilled Json_ok, s)).
Proof.
  intros Hevs Hev HR s. destruct (deliver_ids evs Hevs) as [Hkeys Hids].
  fold s in Hkeys, Hids. split.
  - intros egressId Hid. apply webhook_ingress_ended; eauto.
  - by apply webhook_ingress_ended_idle.
Qed.

Lemma ready_is_id_bearing : id_bearing ready.
Proof. intros r a v egressId [= <-]. discriminate. Qed.

Lemma ingress_ended_stops_once_witness :
  let s := deliver [(ready, Fulfilled room1_video)] idle in
  activeEgressMap s !! "room1" = Some "EG_1" ∧
  stopEgress egress_down "EG_1" = Rejected "egress service unavailable" ∧
  webhook egress_down (Fulfilled room1_ended) s =
    (Fulfilled Json_ok,
     {| activeEgressMap := delete "room1" (activeEgressMap s);
        calls := calls s ++ [StopEgress "EG_1"] |}) ∧
  webhook egress_down (Fulfilled room1_ended) idle = (Fulfilled Json_ok, idle).
Proof.
  intros s.
  destruct (ingress_ended_stops_once [(ready, Fulfilled room1_video)]
              egress_down room1_ended "room1")
    as [Hstop _];
    [by repeat constructor; apply ready_is_id_bearing | reflexivity | reflexivity |].
  destruct (ingress_ended_stops_once [] egress_down room1_ended "room1")
    as [_ Hnone]; [constructor | reflexivity | reflexivity |].
  split_and!.
  - reflexivity.
  - reflexivity.
  - apply Hstop. reflexivity.
  - apply Hnone. reflexivity.
Defined.

(** The handler tests the recorded id for truthiness, not the presence of
    the entry: were a start call answered without an id, the entry recorded
    for it would be neither stopped nor removed. *)
Lemma empty_job_id_is_kept :
  let s := (webhook anonymous_job (Fulfilled room1_video) idle).2 in
  let s1 := (webhook anonymous_job (Fulfilled room1_ended) s).2 in
  ended_room room1_ended = Some "room1" ∧
  activeEgressMap s !! "room1" = Some "" ∧
  count is_stop (calls s1) = 0%nat ∧
  activeEgressMap s1 !! "room1" = Some "".
Proof. vm_compute. done. Qed.

(** *** A room that is published again *)



(** X7: a verified event that is neither [ingress_ended] nor a
    [track_published] of a video track is acknowledged and nothing else: no
    call to the platform, the map unchanged. *)
Theorem other_events_are_ignored (lk : LiveKit) (ev : WebhookEvent) (s : Server) :
  event ev ≠ "ingress_ended" →
  (event ev = "track_published" →
   ∀ R t, event_room ev = Some R → track ev = Some t → type t ≠ 1) →
  webhook lk (Fulfilled ev) s = (Fulfilled Json_ok, s).
Proof.
  intros Hie Htp. apply String.eqb_neq in Hie.
  unfold webhook. js_unfold. simpl. rewrite Hie.
  destruct (String.eqb (event ev) "track_published") eqn:Hev; simpl; [|done].
  apply String.eqb_eq in Hev. specialize (Htp Hev).
  destruct (event_room ev) as [R|], (track ev) as [t|]; simpl; try done.
  specialize (Htp R t eq_refl eq_refl). apply Z.eqb_neq in Htp.
  destruct (negb (negb (String.eqb R ""))); simpl; [done|].
  unfold track_published. egress_unfold. js_unfold. simpl. rewrite Htp.
  by destruct (Z.eqb (type t) 0).
Qed.

Lemma other_events_are_ignored_witness :
  let ev := {| event := "participant_joined";
               room := Some {| name := Some "room1" |};
               track := None; ingressInfo := None |} in
  webhook egress_down (Fulfilled ev) idle = (Fulfilled Json_ok, idle).
Proof.
  apply (other_events_are_ignored egress_down
           {| event := "participant_joined";
              room := Some {| name := Some "room1" |};
              track := None; ingressInfo := None |} idle).
  - discriminate.
  - discriminate.
Defined.

End EgressFacts.

(** ** Recording storage *)

Module StorageFacts.
Import Storage.

Ltac fs_unfold :=
  unfold fs_pathExists, fs_stat, fs_move, fs_remove, fs_readdir, fs_ensureDir,
    s3_upload, s3_deleteObject, s3_headBucket, Date_now, floating in *.

(** *** Paths *)

Lemma strip_app (pre s : string) : strip pre (pre +:+ s) = Some s.
Proof.
  induction pre as [|a pre IH]; [by destruct s|].
  rewrite app_cons. simpl. by rewrite Ascii.eqb_refl.
Qed.

Lemma strip_Some (pre s r : string) : strip pre s = Some r → s = pre +:+ r.
Proof.
  revert s. induction pre as [|a pre IH]; intros s H.
  - destruct s; by simplify_eq/=.
  - destruct s as [|b s]; [done|]. simpl in H.
    destruct (Ascii.eqb a b) eqn:Hab; [|done].
    apply Ascii.eqb_eq in Hab as ->. rewrite app_cons. f_equal. by apply IH.
Qed.

Lemma strip_common (a b c : string) : strip (a +:+ b) (a +:+ c) = strip b c.
Proof.
  induction a as [|x a IH]; [by destruct b, c|].
  rewrite !app_cons. simpl. by rewrite Ascii.eqb_refl.
Qed.

Lemma entry_of_Some (dir p n : string) :
  entry_of dir p = Some n → p = path_join dir n ∧ is_name n = true.
Proof.
  unfold entry_of, path_join. intros H.
  destruct (strip (dir +:+ "/") p) as [r|] eqn:Hr; [|done]. simpl in H.
  destruct (is_name r) eqn:Hname; simplify_eq.
  apply strip_Some in Hr. by rewrite app_assoc_str in Hr.
Qed.

Lemma entry_of_join (dir n : string) :
  is_name n = true → entry_of dir (path_join dir n) = Some n.
Proof.
  intros Hn. unfold entry_of, path_join.
  rewrite <- app_assoc_str, strip_app. simpl. by rewrite Hn.
Qed.

Lemma under_refl (p : string) : under p p = true.
Proof. unfold under. by rewrite String.eqb_refl. Qed.

(** Two different entries of a directory do not lie below one another. *)
Lemma under_sibling (dir n n' : string) :
  is_name n' = true → n ≠ n' →
  under (path_join dir n) (path_join dir n') = false.
Proof.
  intros Hn' Hne. unfold under, path_join.
  apply orb_false_iff. split.
  - apply String.eqb_neq. intros Heq.
    apply Hne. by do 2 apply (inj (String.app _)) in Heq.
  - apply bool_decide_eq_false_2. intros [r Hr].
    rewrite !app_assoc_str, !strip_common in Hr.
    apply strip_Some in Hr. rewrite app_assoc_str in Hr.
    unfold is_name in Hn'. apply andb_true_iff in Hn' as [_ Hn'].
    by rewrite Hr, has_slash_app in Hn'.
Qed.

(** *** Lookups *)

Lemma lookup_path_filter (f : string → bool) (p : string) (fs : list (string * Stats)) :
  lookup_path p (List.filter (λ e, f e.1) fs) =
    if f p then lookup_path p fs else None.
Proof.
  induction fs as [|[q st] fs IH]; simpl; [by destruct (f p)|].
  destruct (String.eqb p q) eqn:Hpq.
  - apply String.eqb_eq in Hpq as <-.
    destruct (f p) eqn:Hf; simpl; [by rewrite String.eqb_refl | exact IH].
  - destruct (f q); simpl; rewrite ?Hpq; exact IH.
Qed.

Lemma lookup_path_snoc (p q : string) (st : Stats) (fs : list (string * Stats)) :
  lookup_path p (fs ++ [(q, st)]) =
    match lookup_path p fs with
    | Some st' => Some st'
    | None => if String.eqb p q then Some st else None
    end.
Proof.
  induction fs as [|[q' st'] fs IH]; simpl; [done|].
  by destruct (String.eqb p q').
Qed.

Lemma lookup_path_is_Some (p : string) (fs : list (string * Stats)) :
  is_Some (lookup_path p fs) ↔ p ∈ fs.*1.
Proof.
  induction fs as [|[q st] fs IH]; simpl.
  - split; [by intros [? ?] | by intros ?%elem_of_nil].
  - destruct (String.eqb p q) eqn:Hpq.
    + apply String.eqb_eq in Hpq as ->. split; [intros _; left | eauto].
    + apply String.eqb_neq in Hpq. rewrite IH. split; [by right|].
      by intros [?|?]%elem_of_cons.
Qed.

Lemma dir_entries_is_name (dir : string) (fs : list (string * Stats)) :
  Forall (λ n, is_name n = true) (dir_entries dir fs).
Proof.
  induction fs as [|[p st] fs IH]; simpl; [constructor|].
  unfold dir_entries in *. simpl.
  destruct (entry_of dir p) as [n|] eqn:Hn; [|done].
  constructor; [|done]. by apply entry_of_Some in Hn as [_ ?].
Qed.

Lemma dir_entries_In (dir n : string) (fs : list (string * Stats)) :
  n ∈ dir_entries dir fs → path_join dir n ∈ fs.*1.
Proof.
  unfold dir_entries. intros Hin.
  apply list_elem_of_omap in Hin as ([p st] & Hin & Hn). simpl in Hn.
  apply entry_of_Some in Hn as [-> _].
  apply list_elem_of_fmap. by exists (path_join dir n, st).
Qed.

Lemma dir_entries_NoDup (dir : string) (fs : list (string * Stats)) :
  NoDup fs.*1 → NoDup (dir_entries dir fs).
Proof.
  induction fs as [|[p st] fs IH]; simpl; [constructor|].
  intros [Hp Hfs]%NoDup_cons. unfold dir_entries in *. simpl.
  destruct (entry_of dir p) as [n|] eqn:Hn; [|by apply IH].
  apply NoDup_cons. split; [|by apply IH].
  intros Hin%dir_entries_In. by apply entry_of_Some in Hn as [-> _].
Qed.

Lemma dir_entries_elem (dir n : string) (fs : list (string * Stats)) :
  is_name n = true → is_Some (lookup_path (path_join dir n) fs) →
  n ∈ dir_entries dir fs.
Proof.
  intros Hn [[p st] [Hin Heq]]%lookup_path_is_Some%list_elem_of_fmap.
  simplify_eq/=. unfold dir_entries.
  apply list_elem_of_omap. exists (path_join dir n, st). split; [done|].
  by apply entry_of_join.
Qed.

(** *** Removal and renaming *)

Lemma blocked_None (p : string) (w : World) :
  blocked p w = None ↔
  ∀ q, q ∈ readonly w → under p q = true → lookup_path q (files w) = None.
Proof.
  unfold blocked. split.
  - intros Hnone q Hq Hu.
    apply eq_None_not_Some. intros Hsome.
    pose proof (find_none _ _ Hnone q (proj1 (list_elem_of_In _ _) Hq)) as Hq'.
    simpl in Hq'. by rewrite Hu, bool_decide_eq_true_2 in Hq'.
  - intros Hall. destruct (List.find _ _) as [q|] eqn:Hfind; [|done].
    apply find_some in Hfind as [Hin [Hu Hex%bool_decide_eq_true_1]%andb_true_iff].
    rewrite (Hall q) in Hex; [by destruct Hex|by apply list_elem_of_In|done].
Qed.

Lemma In_dec_str_true (p : string) (l : list string) :
  In_dec_str p l = true ↔ p ∈ l.
Proof.
  unfold In_dec_str. rewrite existsb_exists, list_elem_of_In. split.
  - by intros (q & Hq & ->%String.eqb_eq).
  - intros Hp. exists p. by rewrite String.eqb_refl.
Qed.

(** a protected path that exists cannot be removed *)
Lemma blocked_self (p : string) (w : World) :
  is_Some (lookup_path p (files w)) → In_dec_str p (readonly w) = true →
  is_Some (blocked p w).
Proof.
  intros [st Hst] Hin%In_dec_str_true.
  destruct (blocked p w) as [q|] eqn:Hb; [by eauto|].
  rewrite blocked_None in Hb. rewrite (Hb p Hin (under_refl p)) in Hst. done.
Qed.

(** a path with nothing listed below it is blocked by its own protection
    only *)
Lemma blocked_leaf (p : string) (w : World) :
  (∀ q, under p q = true → is_Some (lookup_path q (files w)) → q = p) →
  In_dec_str p (readonly w) = false →
  blocked p w = None.
Proof.
  intros Hleaf Hfree. apply blocked_None. intros q Hq Hu.
  apply eq_None_not_Some. intros Hsome.
  rewrite (Hleaf q Hu Hsome) in Hq.
  apply In_dec_str_true in Hq. congruence.
Qed.

(** what is free to go stays free when paths are taken away *)
Lemma blocked_None_filter (p : string) (f : string → bool) (w : World) :
  blocked p w = None →
  blocked p (set_files (List.filter (λ e, f e.1)) w) = None.
Proof.
  rewrite !blocked_None. simpl. intros Hall q Hq Hu.
  rewrite (lookup_path_filter f). rewrite (Hall q Hq Hu). by destruct (f q).
Qed.



Lemma occupied_false (dest : string) (fs : list (string * Stats)) :
  occupied dest fs = false ↔ ∀ e, e ∈ fs → under dest e.1 = false.
Proof.
  unfold occupied. split.
  - intros Hno e He. apply not_true_is_false. intros Hu.
    assert (existsb (λ e, under dest e.1) fs = true) as Hyes; [|congruence].
    apply existsb_exists. exists e. by rewrite <- list_elem_of_In.
  - intros Hall. apply not_true_is_false.
    intros (e & He%list_elem_of_In & Hu)%existsb_exists.
    rewrite (Hall e He) in Hu. done.
Qed.

Lemma occupied_lookup (dest q : string) (fs : list (string * Stats)) :
  occupied dest fs = false → under dest q = true → lookup_path q fs = None.
Proof.
  intros Hfree Hu. pose proof (proj1 (occupied_false _ _) Hfree) as Hall.
  clear Hfree. rename Hall into Hfree. apply eq_None_not_Some.
  intros [[p st] [-> Hin]]%lookup_path_is_Some%list_elem_of_fmap.
  rewrite (Hfree _ Hin) in Hu. done.
Qed.

(** [ensureDir] adds at most the directory, at the end *)
Lemma ensureDir_lookup (d p : string) (w : World) :
  lookup_path p (files (fs_ensureDir d w).2) =
    match lookup_path p (files w) with
    | Some st => Some st
    | None => if String.eqb p d then Some {| size := 0; birthtime := now w |}
              else None
    end.
Proof.
  unfold fs_ensureDir.
  destruct (lookup_path d (files w)) as [sd|] eqn:Hd; simpl.
  - destruct (lookup_path p (files w)) eqn:Hp; [done|].
    destruct (String.eqb p d) eqn:Hpd; [|done].
    apply String.eqb_eq in Hpd as ->. congruence.
  - apply lookup_path_snoc.
Qed.

Lemma ensureDir_frame (d : string) (w : World) :
  readonly (fs_ensureDir d w).2 = readonly w ∧
  buckets (fs_ensureDir d w).2 = buckets w ∧
  s3_failure (fs_ensureDir d w).2 = s3_failure w ∧
  unhandledRejections (fs_ensureDir d w).2 = unhandledRejections w ∧
  now (fs_ensureDir d w).2 = now w.
Proof. unfold fs_ensureDir. by destruct (lookup_path d (files w)). Qed.


(** every way [fs.move] can go, with [w1] the world once the directory of
    the destination is there *)
Lemma fs_move_run (src dest : string) (w : World) :
  let w1 := (fs_ensureDir (dirname dest) w).2 in
  fs_move src dest w =
    match lookup_path src (files w) with
    | None => (Rejected ("ENOENT: no such file or directory, lstat " +:+ src), w)
    | Some st =>
        if occupied dest (files w1)
        then (Rejected "dest already exists.", w1)
        else if In_dec_str src (readonly w)
        then (Rejected ("EPERM: operation not permitted, rename " +:+ src), w1)
        else (Fulfilled tt,
              set_files (λ fs, (List.filter (λ e, negb (String.eqb src e.1)) fs
                                ++ [(dest, st)])%list) w1)
    end.
Proof.
  unfold fs_move. simpl.
  destruct (lookup_path src (files w)); [|done].
  by destruct (ensureDir_frame (dirname dest) w) as (-> & _).
Qed.




(** *** saveRecording *)

Section SaveFacts.
Variable toISOString : Z → string.
Variable env : gmap string string.

Lemma Local_save_success (this : LocalStorage) (tempFilePath key : string)
    (m : PartialMetadata) (w w' : World) (r : IStorageResult) :
  Local_saveRecording toISOString env this tempFilePath key m w = (Fulfilled r, w') →
  success r = true →
  lookup_path tempFilePath (files w') = None ∧
  ∃ dest sz, filePath r = Some dest ∧ persisted (Local this) w' dest = Some sz ∧
             fileSize (metadata r) = default sz (fileSize' m).
Proof.
  unfold Local_saveRecording, persisted.
  unfold fs_pathExists, fs_stat, Date_now. js_unfold. lazy beta zeta.
  generalize (path_join (recordingsPath this)
    (key +:+ "_" +:+ replace_colon_dot (toISOString (now w)) +:+ ".flv")).
  intros dest.
  destruct (lookup_path tempFilePath (files w)) as [st|] eqn:Hsrc;
    [|by intros; simplify_eq/=].
  with_strategy opaque [fs_move] simpl. rewrite fs_move_run, Hsrc. simpl.
  destruct (occupied dest (files (fs_ensureDir (dirname dest) w).2)) eqn:Hdest;
    simpl; [by intros; simplify_eq/=|].
  destruct (In_dec_str tempFilePath (readonly w)); simpl;
    [by intros; simplify_eq/=|].
  pose proof (occupied_lookup _ dest _ Hdest (under_refl dest)) as Hnone.
  assert (String.eqb tempFilePath dest = false) as Hne.
  { apply String.eqb_neq. intros ->.
    rewrite ensureDir_lookup, Hsrc in Hnone. done. }
  rewrite lookup_path_snoc,
    (lookup_path_filter (λ q, negb (String.eqb tempFilePath q))).
  rewrite Hne, Hnone. simpl. rewrite String.eqb_refl. simpl.
  intros ? _. simplify_eq. simpl.
  split.
  - rewrite lookup_path_snoc,
      (lookup_path_filter (λ q, negb (String.eqb tempFilePath q))).
    by rewrite String.eqb_refl, Hne.
  - exists dest, (size st). split_and!; try done.
    rewrite lookup_path_snoc,
      (lookup_path_filter (λ q, negb (String.eqb tempFilePath q))).
    by rewrite Hne, Hnone, String.eqb_refl.
Qed.

Lemma S3_save_success (this : S3Storage) (tempFilePath key : string)
    (m : PartialMetadata) (w w' : World) (r : IStorageResult) :
  S3_saveRecording toISOString this tempFilePath key m w = (Fulfilled r, w') →
  success r = true →
  lookup_path tempFilePath (files w') = None ∧
  ∃ s3Key sz, filePath r = Some s3Key ∧ persisted (S3 this) w' s3Key = Some sz ∧
              fileSize (metadata r) = default sz (fileSize' m).
Proof.
  unfold S3_saveRecording, persisted. fs_unfold. js_unfold. simpl.
  destruct (lookup_path tempFilePath (files w)) as [st|] eqn:Hsrc; simpl;
    [|by intros; simplify_eq/=].
  rewrite Hsrc. simpl.
  destruct (s3_failure w); simpl; [by intros; simplify_eq/=|].
  rewrite Hsrc.
  destruct (buckets w !! bucketName this) as [objs|] eqn:Hb; simpl;
    [|by intros; simplify_eq/=].
  rewrite Hsrc.
  destruct (blocked tempFilePath _); simpl;
    [by intros; simplify_eq/=|].
  intros ? _. simplify_eq. simpl.
  rewrite (lookup_path_filter (λ q, negb (under tempFilePath q))), under_refl.
  split; [done|].
  eexists _, (size st). split; [done|].
  rewrite lookup_insert_eq. simpl. by rewrite lookup_insert_eq.
Qed.

(** No backend lets [saveRecording] reject: every run fulfils with a
    result. *)
Lemma save_fulfils (storage : BaseStorage) (tempFilePath key : string)
    (m : PartialMetadata) (w : World) :
  ∃ r, (saveRecording toISOString env storage tempFilePath key m w).1 = Fulfilled r.
Proof.
  destruct storage as [this|this]; simpl.
  - unfold Local_saveRecording. fs_unfold. js_unfold. simpl.
    repeat (case_match; simplify_eq/=); eauto.
  - unfold S3_saveRecording. fs_unfold. js_unfold. simpl.
    repeat (case_match; simplify_eq/=); eauto.
Qed.

(** C3 (amended): after a save that returns [success: true], on either
    backend, the temp file no longer exists, the destination named in the
    result holds the persisted object, and [metadata.fileSize] is the
    [fileSize] the caller passed in the partial metadata when there is one,
    and the size of the persisted object otherwise. *)
Theorem save_removes_source_and_measures
    (storage : BaseStorage) (tempFilePath key : string)
    (m : PartialMetadata) (w w' : World) (r : IStorageResult) :
  saveRecording toISOString env storage tempFilePath key m w = (Fulfilled r, w') →
  success r = true →
  lookup_path tempFilePath (files w') = None ∧
  ∃ identifier sz,
    filePath r = Some identifier ∧
    persisted storage w' identifier = Some sz ∧
    fileSize (metadata r) = default sz (fileSize' m).
Proof.
  destruct storage as [this|this]; simpl; intros Hrun Hok.
  - by eapply Local_save_success.
  - by eapply S3_save_success.
Qed.

(** C4: on either backend, a save whose temp file does not exist does not
    reject; it fulfils with [success: false] and the error
    [Temp file not found: <path>], and leaves the file system and the bucket
    as they were. *)
Theorem save_missing_temp_file
    (storage : BaseStorage) (tempFilePath key : string)
    (m : PartialMetadata) (w : World) :
  lookup_path tempFilePath (files w) = None →
  ∃ r, saveRecording toISOString env storage tempFilePath key m w = (Fulfilled r, w) ∧
       success r = false ∧
       filePath r = None ∧
       error r = Some ("Temp file not found: " +:+ tempFilePath) ∧
       (∃ e, error r = Some e ∧ mentions tempFilePath e).
Proof.
  intros Hmissing.
  exists (failure key (now w) ("Temp file not found: " +:+ tempFilePath)).
  split_and!; try done.
  - destruct storage as [this|this]; simpl;
      unfold Local_saveRecording, S3_saveRecording; fs_unfold; js_unfold; simpl;
      by rewrite Hmissing.
  - eexists. split; [done|].
    exists "Temp file not found: ", "". by rewrite app_empty_r.
Qed.

End SaveFacts.

Lemma save_removes_source_and_measures_witness :
  let temp := "./media/temp/abc123.flv" in
  let local_run :=
    saveRecording fixed_clock ∅ (Local media) temp "abc123" no_metadata
      (capture_ready None) in
  let remote_run :=
    saveRecording fixed_clock ∅ (S3 recordings_bucket) temp "abc123" no_metadata
      (capture_ready None) in
  (lookup_path temp (files local_run.2) = None ∧
   ∃ identifier sz,
     filePath (result_of local_run.1) = Some identifier ∧
     persisted (Local media) local_run.2 identifier = Some sz ∧
     fileSize (metadata (result_of local_run.1)) = default sz None) ∧
  (lookup_path temp (files remote_run.2) = None ∧
   ∃ identifier sz,
     filePath (result_of remote_run.1) = Some identifier ∧
     persisted (S3 recordings_bucket) remote_run.2 identifier = Some sz ∧
     fileSize (metadata (result_of remote_run.1)) = default sz None).
Proof.
  split.
  - apply (save_removes_source_and_measures fixed_clock ∅ (Local media)
             "./media/temp/abc123.flv" "abc123" no_metadata (capture_ready None));
      reflexivity.
  - apply (save_removes_source_and_measures fixed_clock ∅ (S3 recordings_bucket)
             "./media/temp/abc123.flv" "abc123" no_metadata (capture_ready None));
      reflexivity.
Defined.

(** C3, as stated, fails when the caller passes a [fileSize] of its own: the
    save succeeds, the persisted file has 10 bytes, the result reports 1. *)
Lemma caller_file_size_is_reported :
  let m := {| streamKey' := None; fileName' := None; fileSize' := Some 1;
              duration' := None; quality' := None; thumbnailPath' := None;
              uploadTime' := None |} in
  let dest := "./media/recordings/abc123_2025-11-02T10-00-00-000Z.flv" in
  let run := saveRecording fixed_clock ∅ (Local media) "./media/temp/abc123.flv"
               "abc123" m (capture_ready None) in
  success (result_of run.1) = true ∧
  filePath (result_of run.1) = Some dest ∧
  persisted (Local media) run.2 dest = Some 10 ∧
  fileSize (metadata (result_of run.1)) = 1.
Proof. vm_compute. done. Qed.

Lemma save_missing_temp_file_witness :
  ∃ r, saveRecording fixed_clock ∅ (S3 recordings_bucket) "./media/temp/gone.flv"
         "abc123" no_metadata (capture_ready None)
       = (Fulfilled r, capture_ready None) ∧
       success r = false ∧
       filePath r = None ∧
       error r = Some ("Temp file not found: " +:+ "./media/temp/gone.flv") ∧
       (∃ e, error r = Some e ∧ mentions "./media/temp/gone.flv" e).
Proof.
  apply (save_missing_temp_file fixed_clock ∅ (S3 recordings_bucket)
           "./media/temp/gone.flv" "abc123" no_metadata (capture_ready None)).
  reflexivity.
Defined.

(** *** cleanupOldRecordings *)

Lemma filter_twice {A} (f g : A → bool) (l : list A) :
  List.filter g (List.filter f l) = List.filter (λ x, f x && g x) l.
Proof.
  induction l as [|x l IH]; simpl; [done|].
  destruct (f x); simpl; [destruct (g x)|]; by rewrite ?IH.
Qed.

Lemma filter_all {A} (l : list A) : List.filter (λ _, true) l = l.
Proof. induction l; simpl; by f_equal. Qed.

Lemma set_files_swept_nil (dir : string) (w : World) : set_files (swept dir []) w = w.
Proof. destruct w. unfold set_files, swept. simpl. by rewrite filter_all. Qed.

Lemma swept_lookup (dir : string) (olds : list string) (fs : list (string * Stats))
    (p : string) :
  lookup_path p (swept dir olds fs) =
    if existsb (λ n, under (path_join dir n) p) olds then None else lookup_path p fs.
Proof.
  unfold swept.
  rewrite (lookup_path_filter
             (λ q, negb (existsb (λ n, under (path_join dir n) q) olds))).
  by destruct (existsb _ olds).
Qed.

Lemma old_entries_spec (this : LocalStorage) (w : World) (maxAgeHours : Z) (n : string) :
  n ∈ old_entries this w maxAgeHours ↔
  n ∈ dir_entries (recordingsPath this) (files w) ∧
  is_old (cutoffTime w maxAgeHours) (files w) (recordingsPath this) n = true.
Proof. unfold old_entries. by rewrite !list_elem_of_In, filter_In. Qed.

Section CleanupFacts.
Variable this : LocalStorage.
Variable cutoff : Z.

Lemma is_old_after_remove (w : World) (n n' : string) :
  is_name n' = true → n ≠ n' →
  is_old cutoff
    (List.filter (λ e, negb (under (path_join (recordingsPath this) n) e.1)) (files w))
    (recordingsPath this) n'
  = is_old cutoff (files w) (recordingsPath this) n'.
Proof.
  intros Hname Hne. unfold is_old.
  rewrite (lookup_path_filter (λ q, negb (under (path_join (recordingsPath this) n) q))).
  by rewrite under_sibling.
Qed.

(** The loop over a duplicate-free list of entries that exist and that
    nothing keeps from being removed runs to its end, counts the old ones
    and leaves the file system without them. *)
Lemma cleanup_loop_spec (names : list string) (w : World) (deletedCount : Z) :
  NoDup names →
  Forall (λ n, is_name n = true) names →
  (∀ n, n ∈ names →
     is_Some (lookup_path (path_join (recordingsPath this) n) (files w)) ∧
     blocked (path_join (recordingsPath this) n) w = None) →
  cleanup_loop this cutoff names deletedCount w =
    (Normal (deletedCount +
             Z.of_nat (length (List.filter
                                 (is_old cutoff (files w) (recordingsPath this)) names))),
     set_files (swept (recordingsPath this)
                  (List.filter (is_old cutoff (files w) (recordingsPath this)) names))
       w).
Proof.
  revert w deletedCount.
  induction names as [|n names IH]; intros w deletedCount Hdup Hnames Hok.
  - simpl. rewrite set_files_swept_nil. unfold mret, Js_ret. by rewrite Z.add_0_r.
  - apply NoDup_cons in Hdup as [Hn Hdup].
    apply Forall_cons in Hnames as [Hname Hnames].
    destruct (Hok n) as [[st Hst] Hrw]; [left|].
    assert (∀ n', n' ∈ names → is_name n' = true ∧ n ≠ n') as Hsib.
    { intros n' Hin. split; [by eapply Forall_forall in Hnames | by intros ->]. }
    assert (is_old cutoff (files w) (recordingsPath this) n
            = Z.ltb (birthtime st) cutoff) as Hold.
    { unfold is_old. by rewrite Hst. }
    simpl. unfold cleanup_step. fs_unfold. js_unfold.
    rewrite Hold, Hst. simpl.
    destruct (Z.ltb (birthtime st) cutoff) eqn:Hage; simpl.
    + rewrite Hst, Hrw. simpl.
      assert (List.filter
                (is_old cutoff
                   (List.filter
                      (λ e, negb (under (path_join (recordingsPath this) n) e.1))
                      (files w))
                   (recordingsPath this))
                names
              = List.filter (is_old cutoff (files w) (recordingsPath this)) names)
        as Holds.
      { apply filter_ext_in. intros n' Hin%list_elem_of_In.
        destruct (Hsib n' Hin). by apply is_old_after_remove. }
      rewrite IH; [|done|done|].
      * simpl. rewrite Holds. f_equal; [f_equal; lia|].
        unfold set_files, swept. simpl. f_equal. rewrite filter_twice.
        apply filter_ext. intros e. by rewrite negb_orb.
      * intros n' Hin. simpl. destruct (Hsib n' Hin).
        rewrite (lookup_path_filter
                   (λ q, negb (under (path_join (recordingsPath this) n) q))).
        rewrite under_sibling by done.
        destruct (Hok n') as [Hthere Hfree]; [by right|].
        split; [done|].
        by apply (blocked_None_filter _
                    (λ q, negb (under (path_join (recordingsPath this) n) q))).
    + rewrite IH; [done|done|done|]. intros n' Hin. apply Hok. by right.
Qed.

End CleanupFacts.

Lemma cleanup_result (this : LocalStorage) (maxAgeHours : Z) (w : World) :
  sweepable this w →
  cleanupOldRecordings this maxAgeHours w =
    (Fulfilled (Z.of_nat (length (old_entries this w maxAgeHours))),
     set_files (swept (recordingsPath this) (old_entries this w maxAgeHours)) w).
Proof.
  intros (Hdup & [d Hdir] & Hrw).
  unfold cleanupOldRecordings, old_entries, cutoffTime. fs_unfold. js_unfold.
  rewrite Hdir. simpl.
  rewrite cleanup_loop_spec.
  - done.
  - by apply dir_entries_NoDup.
  - apply dir_entries_is_name.
  - intros n Hin. split; [|by apply Hrw].
    by apply lookup_path_is_Some, dir_entries_In.
Qed.

(** Whatever fails, [cleanupOldRecordings] fulfils: with the count when the
    loop ran to its end, with 0 from the [catch] branch. *)
Lemma cleanup_fulfils (this : LocalStorage) (maxAgeHours : Z) (w : World) :
  ∃ k, (cleanupOldRecordings this maxAgeHours w).1 = Fulfilled k.
Proof.
  unfold cleanupOldRecordings. fs_unfold. js_unfold.
  destruct (lookup_path (recordingsPath this) (files w)); simpl; [|eauto].
  destruct (cleanup_loop _ _ _ _ _) as [[] ?]; simpl; eauto.
Qed.



(** A recordings directory that cannot be read gives 0 as well. *)
Lemma cleanup_missing_directory (this : LocalStorage) (maxAgeHours : Z) (w : World) :
  lookup_path (recordingsPath this) (files w) = None →
  cleanupOldRecordings this maxAgeHours w = (Fulfilled 0, w).
Proof.
  intros Hdir. unfold cleanupOldRecordings. fs_unfold. js_unfold.
  by rewrite Hdir.
Qed.





(** C10 (amended): when no file operation fails (the recordings directory
    exists, neither an entry of it nor a path below one is protected, no
    path is listed twice), an entry of the recordings directory of any name
    (no extension is asked for, a subdirectory such as [thumbnails]
    qualifies as a recording does) whose creation time is before the cutoff
    is among the entries the returned total counts, once, and is removed
    together with everything below it. *)
Theorem cleanup_takes_entries_of_any_kind (this : LocalStorage) (maxAgeHours : Z)
    (w : World) (n : string) (st : Stats) :
  sweepable this w →
  is_name n = true →
  lookup_path (path_join (recordingsPath this) n) (files w) = Some st →
  (birthtime st < cutoffTime w maxAgeHours)%Z →
  let w' := (cleanupOldRecordings this maxAgeHours w).2 in
  (cleanupOldRecordings this maxAgeHours w).1 =
    Fulfilled (Z.of_nat (length (old_entries this w maxAgeHours))) ∧
  n ∈ old_entries this w maxAgeHours ∧
  NoDup (old_entries this w maxAgeHours) ∧
  ∀ q, under (path_join (recordingsPath this) n) q = true →
       lookup_path q (files w') = None.
Proof.
  intros Hok Hname Hst Hage w'. subst w'.
  rewrite (cleanup_result this maxAgeHours w Hok). simpl.
  assert (n ∈ old_entries this w maxAgeHours) as Hold.
  { apply old_entries_spec. split.
    - apply dir_entries_elem; [done|]. by rewrite Hst.
    - unfold is_old. rewrite Hst. by apply Z.ltb_lt. }
  split_and!; [done | done | |].
  - unfold old_entries. apply NoDup_ListNoDup, List.NoDup_filter, NoDup_ListNoDup.
    apply dir_entries_NoDup. by destruct Hok.
  - intros q Hq. rewrite swept_lookup.
    assert (existsb (λ n0, under (path_join (recordingsPath this) n0) q)
              (old_entries this w maxAgeHours) = true) as ->; [|done].
    apply existsb_exists. exists n. split; [by apply list_elem_of_In | done].
Qed.

Lemma mixed_directory_sweepable : sweepable media (mixed_directory []).
Proof.
  split_and!.
  - by apply (bool_decide_unpack _); vm_compute.
  - by eexists.
  - done.
Qed.

(** The [thumbnails] directory that [initializeDirectories] creates is such
    an entry. *)
Lemma initializeDirectories_creates_thumbnails :
  let w0 := {| files := []; readonly := []; buckets := ∅; s3_failure := None;
               unhandledRejections := []; now := 0 |} in
  files (initializeDirectories media w0).2 =
    [ ("./media/recordings", {| size := 0; birthtime := 0 |});
      ("./media/temp", {| size := 0; birthtime := 0 |});
      ("./media/recordings/thumbnails", {| size := 0; birthtime := 0 |}) ].
Proof. reflexivity. Qed.

Lemma cleanup_takes_entries_of_any_kind_witness :
  let run := cleanupOldRecordings media 168 (mixed_directory []) in
  run.1 = Fulfilled 2 ∧
  old_entries media (mixed_directory []) 168 = ["thumbnails"; "notes.txt"] ∧
  lookup_path "./media/recordings/thumbnails" (files run.2) = None ∧
  lookup_path "./media/recordings/thumbnails/abc.jpg" (files run.2) = None.
Proof.
  destruct (cleanup_takes_entries_of_any_kind media 168 (mixed_directory [])
              "thumbnails" {| size := 0; birthtime := 0 |}
              mixed_directory_sweepable)
    as (Hcount & _ & _ & Hgone); [reflexivity | reflexivity | reflexivity |].
  split_and!.
  - exact Hcount.
  - reflexivity.
  - by apply Hgone.
  - by apply Hgone.
Defined.

(** C10, as stated, fails when an entry cannot be deleted: the [thumbnails]
    directory is removed and the text file, as old, is not, and neither is
    counted: the call returns 0. *)
Lemma removed_entry_is_not_counted :
  let w := mixed_directory ["./media/recordings/notes.txt"] in
  let run := cleanupOldRecordings media 168 w in
  old_entries media w 168 = ["thumbnails"; "notes.txt"] ∧
  run.1 = Fulfilled 0 ∧
  lookup_path "./media/recordings/thumbnails" (files run.2) = None ∧
  lookup_path "./media/recordings/notes.txt" (files run.2)
    = Some {| size := 3; birthtime := 100 |}.
Proof. vm_compute. done. Qed.

(** A protected file below an old entry keeps the entry from being deleted:
    the sweep ends there with 0, and the file is still in place. *)
Lemma protected_thumbnail_aborts_sweep :
  let w := mixed_directory ["./media/recordings/thumbnails/abc.jpg"] in
  let run := cleanupOldRecordings media 168 w in
  blocked "./media/recordings/thumbnails" w
    = Some "./media/recordings/thumbnails/abc.jpg" ∧
  run.1 = Fulfilled 0 ∧
  lookup_path "./media/recordings/thumbnails/abc.jpg" (files run.2)
    = lookup_path "./media/recordings/thumbnails/abc.jpg" (files w) ∧
  is_Some (lookup_path "./media/recordings/thumbnails/abc.jpg" (files w)).
Proof. vm_compute. eauto. Qed.

(** *** deleteRecording *)

(** The local backend answers [false] for a recording that is not there, and
    leaves the file system alone. *)
Lemma Local_delete_absent (this : LocalStorage) (fileName : string) (w : World) :
  lookup_path (path_join (recordingsPath this) fileName) (files w) = None →
  Local_deleteRecording this fileName w = (Fulfilled false, w).
Proof.
  intros Habsent. unfold Local_deleteRecording. fs_unfold. js_unfold.
  by rewrite Habsent.
Qed.

(** ... so that a second delete after a successful one answers [false]. *)
Lemma Local_delete_twice (this : LocalStorage) (fileName : string) (w : World) :
  let first := Local_deleteRecording this fileName w in
  first.1 = Fulfilled true →
  Local_deleteRecording this fileName first.2 = (Fulfilled false, first.2).
Proof.
  intros first Htrue. apply Local_delete_absent. subst first.
  unfold Local_deleteRecording in *. fs_unfold. js_unfold.
  destruct (lookup_path _ (files w)) eqn:Hfile; simpl in *; [|done].
  rewrite Hfile in *.
  destruct (blocked _ w); simpl in *; [done|].
  rewrite (lookup_path_filter
             (λ q, negb (under (path_join (recordingsPath this) fileName) q))).
  by rewrite under_refl.
Qed.

(** The remote backend never asks whether the object exists: it answers
    [true] whenever the store acknowledges the request. *)
Lemma S3_delete_acknowledged (this : S3Storage) (s3Key : string) (w : World)
    (objs : gmap string S3Object) :
  s3_failure w = None →
  buckets w !! bucketName this = Some objs →
  S3_deleteRecording this s3Key w =
    (Fulfilled true,
     set_buckets (insert (bucketName this) (delete s3Key objs)) w).
Proof.
  intros Hup Hbucket. unfold S3_deleteRecording. fs_unfold. js_unfold.
  by rewrite Hup, Hbucket.
Qed.

(** C6, at the failing input: nothing is stored under the key, the store is
    reachable; the remote backend answers [true], and [true] again for a
    second delete of the same key, where the claim asks for [false]. The
    local backend answers [false] for the same request. *)
Theorem S3_delete_of_absent_object_answers_true :
  let key := "recordings/abc123/abc123_2025-11-02T10-00-00-000Z.flv" in
  let first := deleteRecording (S3 recordings_bucket) key (capture_ready None) in
  let second := deleteRecording (S3 recordings_bucket) key first.2 in
  persisted (S3 recordings_bucket) (capture_ready None) key = None ∧
  first.1 = Fulfilled true ∧
  persisted (S3 recordings_bucket) first.2 key = None ∧
  second.1 = Fulfilled true ∧
  (deleteRecording (Local media) "abc123_2025-11-02T10-00-00-000Z.flv"
     (capture_ready None)).1 = Fulfilled false.
Proof. vm_compute. done. Qed.

(** *** Construction of the remote backend *)

(** [new S3Storage()] completes normally in every world; a failed bucket
    check is left behind as an unhandled rejection. *)
Lemma S3Storage_new_returns (env : gmap string string) (w : World) :
  ∃ this, (S3Storage_new env (R := BaseStorage) w).1 = Normal this ∧
    ∀ e, (verifyConnection this w).1 = Rejected e →
         S3Storage_new env (R := BaseStorage) w = (Normal this, unhandled e w).
Proof.
  unfold S3Storage_new, verifyConnection. fs_unfold. js_unfold. simpl.
  eexists. split.
  - by repeat (case_match; simplify_eq/=).
  - intros e. by repeat (case_match; simplify_eq/=); intros; simplify_eq.
Qed.

(** ... and so does the factory when it is asked for the remote backend. *)
Lemma createStorage_s3_returns (env : gmap string string) (w : World) :
  env !! "STORAGE_TYPE" = Some "s3" →
  ∃ this w', createStorage env w = (Return (S3 this), w').
Proof.
  intros Htype. unfold createStorage, getenv. rewrite Htype. simpl.
  destruct (S3Storage_new_returns env w) as (this & Hnew & _).
  js_unfold. destruct (S3Storage_new env w) as [c w'] eqn:Hrun.
  simpl in Hnew. subst c. by exists this, w'.
Qed.

(** C5, at the failing input: the object store rejects every request; the
    bucket check fails, yet the constructor, and the factory around it,
    return the instance, the error ends up as an unhandled rejection, and the
    instance accepts a save, which only then reports the failure. *)
Theorem S3Storage_new_returns_when_check_fails :
  let w := capture_ready (Some "InvalidAccessKeyId") in
  let built := createStorage {[ "STORAGE_TYPE" := "S3" ]} w in
  (s3_headBucket "livestream-recordings" w).1 = Rejected "InvalidAccessKeyId" ∧
  (verifyConnection recordings_bucket w).1
    = Rejected "S3 connection failed: InvalidAccessKeyId" ∧
  (S3Storage_new ∅ (R := BaseStorage) w).1 = Normal recordings_bucket ∧
  built.1 = Return (S3 recordings_bucket) ∧
  unhandledRejections built.2 = ["S3 connection failed: InvalidAccessKeyId"] ∧
  (saveRecording fixed_clock ∅ (S3 recordings_bucket) "./media/temp/abc123.flv"
     "abc123" no_metadata built.2).1
    = Fulfilled (failure "abc123" 1000 "InvalidAccessKeyId").
Proof. vm_compute. done. Qed.

(** *** listRecordings and getStorageInfo of the local backend *)

Lemma descending_newest_first (l : list IStorageMetadata) :
  descending l → newest_first l.
Proof.
  induction l as [|x l IH]; intros Hd i j a b Hij Hi Hj; [done|].
  destruct Hd as [Hx Hl].
  destruct j as [|j]; [lia|]. simpl in Hj.
  destruct i as [|i]; simpl in Hi.
  - simplify_eq. rewrite Forall_forall in Hx. apply Hx.
    by eapply list_elem_of_lookup_2.
  - apply (IH Hl i j); [lia|done|done].
Qed.

Lemma insert_recording_perm (x : IStorageMetadata) (l : list IStorageMetadata) :
  insert_recording x l ≡ₚ x :: l.
Proof.
  induction l as [|y l IH]; simpl; [done|].
  destruct (Z.leb (uploadTime y) (uploadTime x)); [done|].
  rewrite IH. apply Permutation_swap.
Qed.

Lemma insert_recording_descending (x : IStorageMetadata) (l : list IStorageMetadata) :
  descending l → descending (insert_recording x l).
Proof.
  induction l as [|y l IH]; simpl; [by intros; split|].
  intros [Hy Hl].
  destruct (Z.leb (uploadTime y) (uploadTime x)) eqn:Hle; simpl.
  - apply Z.leb_le in Hle. split; [|done].
    constructor; [done|]. eapply Forall_impl; [exact Hy|]. simpl. intros; lia.
  - apply Z.leb_gt in Hle. split; [|by apply IH].
    rewrite insert_recording_perm. constructor; [lia|done].
Qed.

Lemma sort_recordings_perm (l : list IStorageMetadata) : sort_recordings l ≡ₚ l.
Proof.
  induction l as [|x l IH]; simpl; [done|].
  unfold sort_recordings in *. simpl. by rewrite insert_recording_perm, IH.
Qed.

Lemma sort_recordings_descending (l : list IStorageMetadata) :
  descending (sort_recordings l).
Proof.
  induction l as [|x l IH]; simpl; [done|].
  by apply insert_recording_descending.
Qed.

Section LoopFacts.
Context {R : Type}.
Variable this : LocalStorage.

Lemma list_loop_spec (k : option string) (names : list string)
    (acc : list IStorageMetadata) (w : World) :
  Forall (λ n, is_Some (lookup_path (path_join (recordingsPath this) n) (files w)))
    names →
  list_loop (R := R) this k names acc w =
    (Normal (acc ++ omap (λ n, local_recording n <$>
                                 lookup_path (path_join (recordingsPath this) n) (files w))
               (List.filter (λ n, endsWith n ".flv" && matches_filter k n) names))%list,
     w).
Proof.
  revert acc. induction names as [|n names IH]; intros acc Hall; simpl.
  - by rewrite app_nil_r.
  - inversion Hall as [|? ? [st Hst] Htail]; subst.
    unfold list_step. js_unfold. fs_unfold.
    destruct (endsWith n ".flv"); simpl; [|by apply IH].
    destruct (matches_filter k n); simpl; [|by apply IH].
    rewrite Hst. simpl. rewrite IH by done. by rewrite <- app_assoc.
Qed.

Lemma usage_loop_spec (names : list string) (used : Z) (w : World) :
  Forall (λ n, is_Some (lookup_path (path_join (recordingsPath this) n) (files w)))
    names →
  usage_loop (R := R) this names used w =
    (Normal (used + foldr Z.add 0
               (omap (λ n, size <$>
                             lookup_path (path_join (recordingsPath this) n) (files w))
                  names)),
     w).
Proof.
  revert used. induction names as [|n names IH]; intros used Hall; simpl.
  - js_unfold. by rewrite Z.add_0_r.
  - inversion Hall as [|? ? [st Hst] Htail]; subst.
    js_unfold. fs_unfold. rewrite Hst. simpl. rewrite IH by done.
    by rewrite Z.add_assoc.
Qed.

End LoopFacts.

(** [stat] finds every name [readdir] has returned *)
Lemma dir_entries_exist (dir : string) (fs : list (string * Stats)) :
  Forall (λ n, is_Some (lookup_path (path_join dir n) fs)) (dir_entries dir fs).
Proof.
  apply Forall_forall. intros n Hn.
  apply lookup_path_is_Some. by apply dir_entries_In.
Qed.

Lemma Local_list_run (this : LocalStorage) (k : option string) (w : World) :
  Local_listRecordings this k w =
    (Fulfilled
       match lookup_path (recordingsPath this) (files w) with
       | Some _ => sort_recordings (recordings_in (recordingsPath this) k (files w))
       | None => []
       end, w).
Proof.
  unfold Local_listRecordings. js_unfold. fs_unfold.
  destruct (lookup_path (recordingsPath this) (files w)) as [st|]; simpl; [|done].
  by rewrite list_loop_spec by apply dir_entries_exist.
Qed.

(** X8: [LocalStorage.listRecordings] never rejects and changes nothing.
    Its result runs from the newest recording to the oldest and holds, each
    once per entry, the [.flv] entries of the recordings directory that pass
    the filter, with the name, size and creation time the file system has
    for them; a directory that cannot be read gives the empty list. *)
Theorem Local_list_is_the_sorted_directory (this : LocalStorage)
    (k : option string) (w : World) :
  ∃ recs, Local_listRecordings this k w = (Fulfilled recs, w) ∧
    newest_first recs ∧
    recs ≡ₚ match lookup_path (recordingsPath this) (files w) with
            | Some _ => recordings_in (recordingsPath this) k (files w)
            | None => []
            end.
Proof.
  rewrite Local_list_run. eexists. split; [done|].
  destruct (lookup_path (recordingsPath this) (files w)) as [st|].
  - split.
    + apply descending_newest_first, sort_recordings_descending.
    + apply sort_recordings_perm.
  - split; [|done]. by intros i j a b _ ?.
Qed.

Lemma lookup_path_NoDup (p : string) (st : Stats) (fs : list (string * Stats)) :
  NoDup fs.*1 → (p, st) ∈ fs → lookup_path p fs = Some st.
Proof.
  induction fs as [|[q st'] fs IH]; simpl; [by intros _ ?%elem_of_nil|].
  intros [Hq Hfs]%NoDup_cons [Heq|Hin]%elem_of_cons.
  - simplify_eq. by rewrite String.eqb_refl.
  - destruct (String.eqb p q) eqn:Hpq; [|by apply IH].
    apply String.eqb_eq in Hpq as ->. destruct Hq.
    apply list_elem_of_fmap. by exists (q, st).
Qed.

Lemma direct_size_entries (dir : string) (fs fs' : list (string * Stats)) :
  (∀ p st, (p, st) ∈ fs' → lookup_path p fs = Some st) →
  foldr Z.add 0
    (omap (λ n, size <$> lookup_path (path_join dir n) fs) (dir_entries dir fs')) =
  direct_size dir fs'.
Proof.
  induction fs' as [|[p st] fs' IH]; intros Hfs; [done|].
  unfold dir_entries, direct_size in *. simpl.
  assert (∀ p st, (p, st) ∈ fs' → lookup_path p fs = Some st) as Htail.
  { intros. apply Hfs. by right. }
  destruct (entry_of dir p) as [n|] eqn:Hn; simpl; [|by apply IH].
  apply entry_of_Some in Hn as [-> _].
  rewrite (Hfs _ st) by left. simpl. f_equal. by apply IH.
Qed.

(** X9: where no path is listed twice, [LocalStorage.getStorageInfo]
    fulfils, changes nothing, and reports as used the sizes of the entries
    of the recordings directory itself, whatever their kind, without what
    lies below them, and 100 GiB as available; when the directory cannot be
    read it reports 0 for both. *)
Theorem Local_usage_counts_direct_entries (this : LocalStorage) (w : World) :
  NoDup (files w).*1 →
  Local_getStorageInfo this w =
    (Fulfilled
       match lookup_path (recordingsPath this) (files w) with
       | Some _ => {| used := direct_size (recordingsPath this) (files w);
                      available := 107374182400 |}
       | None => {| used := 0; available := 0 |}
       end, w).
Proof.
  intros Hnodup. unfold Local_getStorageInfo. js_unfold. fs_unfold.
  destruct (lookup_path (recordingsPath this) (files w)) as [st|]; simpl; [|done].
  rewrite usage_loop_spec by apply dir_entries_exist. simpl.
  rewrite direct_size_entries; [done|].
  intros p st' Hin. by apply lookup_path_NoDup.
Qed.

Lemma Local_usage_counts_direct_entries_witness :
  Local_getStorageInfo media (mixed_directory []) =
    (Fulfilled {| used := 23; available := 107374182400 |}, mixed_directory []).
Proof.
  apply (Local_usage_counts_direct_entries media (mixed_directory [])).
  by apply (bool_decide_unpack _); vm_compute.
Defined.

(** *** A recording from its save on *)







(** the file system after a file has been moved *)
Lemma lookup_path_moved (p temp dest : string) (st : Stats)
    (fs : list (string * Stats)) :
  lookup_path dest fs = None → temp ≠ dest →
  lookup_path p (List.filter (λ e, negb (String.eqb temp e.1)) fs ++ [(dest, st)]) =
    if String.eqb p dest then Some st
    else if String.eqb p temp then None else lookup_path p fs.
Proof.
  intros Hdest Hne.
  rewrite lookup_path_snoc, (lookup_path_filter (λ q, negb (String.eqb temp q))).
  destruct (String.eqb p dest) eqn:Hpd.
  - apply String.eqb_eq in Hpd as ->. rewrite Hdest.
    by destruct (negb (String.eqb temp dest)).
  - rewrite (String.eqb_sym temp p).
    destruct (String.eqb p temp); simpl; [done|]. by destruct (lookup_path p fs).
Qed.

Section SavedFacts.
Variable toISOString : Z → string.
Variable env : gmap string string.


(** every way [LocalStorage.saveRecording] can go, with [w1] the world once
    [move] has made sure of the directory of the destination *)
Lemma Local_save_run (this : LocalStorage) (temp key : string)
    (m : PartialMetadata) (w : World) :
  let name := saved_name toISOString key (now w) in
  let dest := path_join (recordingsPath this) name in
  let w1 := (fs_ensureDir (dirname dest) w).2 in
  Local_saveRecording toISOString env this temp key m w =
    match lookup_path temp (files w) with
    | None => (Fulfilled (failure key (now w) ("Temp file not found: " +:+ temp)), w)
    | Some st =>
        if occupied dest (files w1)
        then (Fulfilled (failure key (now w) "dest already exists."), w1)
        else if In_dec_str temp (readonly w)
        then (Fulfilled (failure key (now w)
                           ("EPERM: operation not permitted, rename " +:+ temp)), w1)
        else (Fulfilled
                {| success := true; filePath := Some dest;
                   url := Some (local_url env name);
                   metadata := spread key name (size st) (now w) m;
                   error := None |},
              set_files (λ fs, (List.filter (λ e, negb (String.eqb temp e.1)) fs
                                ++ [(dest, st)])%list) w1)
    end.
Proof.
  unfold Local_saveRecording, saved_name.
  unfold fs_pathExists, fs_stat, Date_now. js_unfold. lazy beta zeta.
  generalize (path_join (recordingsPath this)
    (key +:+ "_" +:+ replace_colon_dot (toISOString (now w)) +:+ ".flv")).
  intros dest.
  destruct (lookup_path temp (files w)) as [st|] eqn:Hsrc; [|done].
  with_strategy opaque [fs_move] simpl. rewrite fs_move_run, Hsrc. simpl.
  destruct (ensureDir_frame (dirname dest) w) as (_ & _ & _ & _ & Hnow).
  destruct (occupied dest (files (fs_ensureDir (dirname dest) w).2)) eqn:Hdest;
    simpl; [by rewrite Hnow|].
  destruct (In_dec_str temp (readonly w)); simpl; [by rewrite Hnow|].
  pose proof (occupied_lookup _ dest _ Hdest (under_refl dest)) as Hnone.
  assert (String.eqb temp dest = false) as Hne.
  { apply String.eqb_neq. intros ->.
    rewrite ensureDir_lookup, Hsrc in Hnone. done. }
  rewrite lookup_path_snoc,
    (lookup_path_filter (λ q, negb (String.eqb temp q))).
  rewrite Hne, Hnone. simpl. rewrite String.eqb_refl. simpl. by rewrite Hnow.
Qed.

Lemma Local_save_succeeded (this : LocalStorage) (temp key : string)
    (m : PartialMetadata) (w w' : World) (r : IStorageResult) :
  Local_saveRecording toISOString env this temp key m w = (Fulfilled r, w') →
  success r = true →
  let name := saved_name toISOString key (now w) in
  let dest := path_join (recordingsPath this) name in
  let w1 := (fs_ensureDir (dirname dest) w).2 in
  ∃ st, lookup_path temp (files w) = Some st ∧
    occupied dest (files w1) = false ∧
    lookup_path dest (files w1) = None ∧
    temp ≠ dest ∧
    r = {| success := true; filePath := Some dest;
           url := Some (local_url env name);
           metadata := spread key name (size st) (now w) m;
           error := None |} ∧
    w' = set_files (λ fs, (List.filter (λ e, negb (String.eqb temp e.1)) fs
                           ++ [(dest, st)])%list) w1.
Proof.
  rewrite Local_save_run. lazy zeta.
  destruct (lookup_path temp (files w)) as [st|] eqn:Hsrc;
    [|by intros; simplify_eq/=].
  destruct (occupied _ _) eqn:Hdest; [by intros; simplify_eq/=|].
  destruct (In_dec_str temp (readonly w)); [by intros; simplify_eq/=|].
  intros [= <- <-] _. exists st.
  pose proof (occupied_lookup _ _ _ Hdest (under_refl _)) as Hnone.
  split_and!; try done.
  intros ->. rewrite ensureDir_lookup, Hsrc in Hnone. done.
Qed.


(** X11: after a successful local save, [getRecordingUrl] of the saved file
    name fulfils with the URL the save returned. When the file is not
    protected, [deleteRecording] of that name answers [true] and removes the
    file; from then on [getRecordingUrl] rejects with
    [Recording not found: <name>] and a second delete answers [false]. *)
Theorem saved_recording_is_served_until_deleted (this : LocalStorage)
    (temp key : string) (m : PartialMetadata) (w w' : World) (r : IStorageResult) :
  Local_saveRecording toISOString env this temp key m w = (Fulfilled r, w') →
  success r = true →
  let name := saved_name toISOString key (now w) in
  let dest := path_join (recordingsPath this) name in
  (∃ u, url r = Some u ∧ Local_getRecordingUrl env this name w' = (Fulfilled u, w')) ∧
  (In_dec_str dest (readonly w) = false →
   ∃ w'', Local_deleteRecording this name w' = (Fulfilled true, w'') ∧
     lookup_path dest (files w'') = None ∧
     Local_getRecordingUrl env this name w'' =
       (Rejected ("Recording not found: " +:+ name), w'') ∧
     Local_deleteRecording this name w'' = (Fulfilled false, w'')).
Proof.
  intros Hrun Hok name dest.
  destruct (Local_save_succeeded _ _ _ _ _ _ _ Hrun Hok)
    as (st & Hsrc & Hfree & Hdest & Hnd & -> & ->).
  fold name in Hfree, Hdest, Hnd |- *. fold dest in Hfree, Hdest, Hnd |- *.
  destruct (ensureDir_frame (dirname dest) w) as (Hro & _).
  set (w1 := (fs_ensureDir (dirname dest) w).2) in *.
  set (w2 := set_files (λ fs, (List.filter (λ e, negb (String.eqb temp e.1)) fs
                               ++ [(dest, st)])%list) w1).
  assert (lookup_path dest (files w2) = Some st) as Hsaved.
  { simpl. by rewrite (lookup_path_moved _ _ _ _ _ Hdest Hnd), String.eqb_refl. }
  assert (In_dec_str dest (readonly w) = false → blocked dest w2 = None) as Hgo.
  { intros Hrw. apply blocked_leaf; simpl; [|by rewrite Hro].
    intros q Hq. rewrite (lookup_path_moved _ _ _ _ _ Hdest Hnd).
    destruct (String.eqb q dest) eqn:Hqd; [by intros _; apply String.eqb_eq|].
    rewrite (occupied_lookup _ _ _ Hfree Hq).
    destruct (String.eqb q temp); by intros [? ?]. }
  clearbody w2.
  split.
  - eexists. split; [done|].
    unfold Local_getRecordingUrl. fs_unfold. js_unfold. fold dest.
    by rewrite Hsaved.
  - intros Hrw. specialize (Hgo Hrw).
    exists (set_files (List.filter (λ e, negb (under dest e.1))) w2).
    assert (lookup_path dest
              (files (set_files (List.filter (λ e, negb (under dest e.1))) w2))
            = None) as Hgone.
    { simpl. by rewrite (lookup_path_filter (λ q, negb (under dest q))), under_refl. }
    split_and!.
    + unfold Local_deleteRecording. fs_unfold. js_unfold. fold dest.
      rewrite Hsaved. simpl. by rewrite Hsaved, Hgo.
    + done.
    + unfold Local_getRecordingUrl. fs_unfold. js_unfold. fold dest.
      by rewrite Hgone.
    + unfold Local_deleteRecording. fs_unfold. js_unfold. fold dest.
      by rewrite Hgone.
Qed.

(** every way [S3Storage.saveRecording] can go *)
Lemma S3_save_run (this : S3Storage) (temp key : string)
    (m : PartialMetadata) (w : World) :
  let name := saved_name toISOString key (now w) in
  let s3Key := saved_key toISOString this key (now w) in
  S3_saveRecording toISOString this temp key m w =
    match lookup_path temp (files w) with
    | None => (Fulfilled (failure key (now w) ("Temp file not found: " +:+ temp)), w)
    | Some st =>
        match s3_failure w with
        | Some e => (Fulfilled (failure key (now w) e), w)
        | None =>
            match buckets w !! bucketName this with
            | None => (Fulfilled (failure key (now w) "NoSuchBucket"), w)
            | Some objs =>
                let uploaded :=
                  set_buckets
                    (insert (bucketName this)
                       (<[s3Key := uploadParams_object toISOString key name (now w) m
                                     (size st) (size st)]> objs)) w in
                match blocked temp w with
                | Some q =>
                    (Fulfilled (failure key (now w)
                        ("EPERM: operation not permitted, unlink " +:+ q)),
                     uploaded)
                | None =>
                    (Fulfilled
                        {| success := true; filePath := Some s3Key;
                           url := Some
                             (if truthy (cloudFrontDomain this)
                              then "https://" +:+ interpolate (cloudFrontDomain this)
                                     +:+ "/" +:+ s3Key
                              else "https://" +:+ bucketName this
                                     +:+ ".s3.amazonaws.com/" +:+ s3Key);
                           metadata := spread key name (size st) (now w) m;
                           error := None |},
                      set_files (List.filter (λ e, negb (under temp e.1))) uploaded)
                end
            end
        end
    end.
Proof.
  unfold S3_saveRecording, saved_key, saved_name. fs_unfold. js_unfold. simpl.
  destruct (lookup_path temp (files w)) as [st|] eqn:Hsrc; simpl; [|done].
  rewrite Hsrc. simpl.
  destruct (s3_failure w); simpl; [done|].
  rewrite Hsrc.
  destruct (buckets w !! bucketName this) as [objs|] eqn:Hb; simpl; [|done].
  rewrite Hsrc.
  change (blocked temp (set_buckets ?f w)) with (blocked temp w).
  destruct (blocked temp w); simpl; [done|].
  by destruct (truthy (cloudFrontDomain this)).
Qed.

(** X12: a save that returns [success: false], on either backend, has kept
    every path that existed, the capture included, with its size and its
    creation time. Its result names no path and no URL, and its metadata are
    the stream key, an empty file name, size 0 and the time of the call:
    what the caller passed is dropped. The bucket is unchanged too, unless
    the backend is the remote one and the capture, or a path below it, is
    protected against deletion. *)
Theorem failed_save_keeps_the_capture (storage : BaseStorage) (temp key : string)
    (m : PartialMetadata) (w w' : World) (r : IStorageResult) :
  saveRecording toISOString env storage temp key m w = (Fulfilled r, w') →
  success r = false →
  (∀ p, is_Some (lookup_path p (files w)) →
        lookup_path p (files w') = lookup_path p (files w)) ∧
  filePath r = None ∧ url r = None ∧
  metadata r = {| streamKey := key; fileName := ""; fileSize := 0;
                  duration := None; quality := None; thumbnailPath := None;
                  uploadTime := now w |} ∧
  (buckets w' = buckets w ∨
   (∃ this, storage = S3 this) ∧ is_Some (blocked temp w)).
Proof.
  assert (∀ d p, is_Some (lookup_path p (files w)) →
            lookup_path p (files (fs_ensureDir d w).2) = lookup_path p (files w))
    as Hkept.
  { intros d p [st Hst]. by rewrite ensureDir_lookup, Hst. }
  destruct storage as [this|this]; simpl.
  - rewrite Local_save_run. lazy zeta.
    set (dest := path_join _ _).
    destruct (ensureDir_frame (dirname dest) w) as (_ & Hb & _).
    repeat case_match; intros; simplify_eq/=; split_and!; eauto.
  - rewrite S3_save_run. lazy zeta.
    repeat case_match; intros; simplify_eq/=; split_and!; eauto 10.
Qed.

(** X13: the remote backend uploads before it removes the capture, and one
    [catch] covers both. When the upload succeeds and the capture cannot be
    removed, the save returns [success: false] without a path, the capture
    is still in place, and the object is in the bucket under the key of this
    save, with the size of the capture. *)
Theorem upload_outlives_failed_cleanup (this : S3Storage) (temp key : string)
    (m : PartialMetadata) (w : World) (st : Stats) (objs : gmap string S3Object) :
  lookup_path temp (files w) = Some st →
  s3_failure w = None →
  buckets w !! bucketName this = Some objs →
  In_dec_str temp (readonly w) = true →
  ∃ r w', S3_saveRecording toISOString this temp key m w = (Fulfilled r, w') ∧
    success r = false ∧ filePath r = None ∧
    lookup_path temp (files w') = Some st ∧
    persisted (S3 this) w' (saved_key toISOString this key (now w)) = Some (size st).
Proof.
  intros Hsrc Hup Hb Hro. rewrite S3_save_run. simpl.
  destruct (blocked_self temp w) as [q Hq]; [by eauto|done|].
  rewrite Hsrc, Hup, Hb, Hq. eexists _, _. split; [done|].
  split_and!; try done. simpl.
  rewrite lookup_insert_eq. simpl. by rewrite lookup_insert_eq.
Qed.

Section Urls.
Variable getSignedUrlPromise : string → string → Z → Settled string.

(** X14: with a CloudFront domain configured, the URL a successful remote
    save returns is [https://<domain>/<key>], and [getRecordingUrl] of the
    key the save returned gives that same URL at any later time, whatever
    [expiresIn] is, without asking the SDK for a signed URL. *)
Theorem cdn_url_of_saved_recording (this : S3Storage) (domain : string)
    (temp key : string) (m : PartialMetadata) (w w' later : World)
    (r : IStorageResult) (expiresIn : option Z) :
  cloudFrontDomain this = Some domain → domain ≠ "" →
  S3_saveRecording toISOString this temp key m w = (Fulfilled r, w') →
  success r = true →
  ∃ s3Key, filePath r = Some s3Key ∧
    url r = Some ("https://" +:+ domain +:+ "/" +:+ s3Key) ∧
    S3_getRecordingUrl getSignedUrlPromise this s3Key expiresIn later =
      (Fulfilled ("https://" +:+ domain +:+ "/" +:+ s3Key), later).
Proof.
  intros Hcdn Hne. rewrite S3_save_run. cbv zeta.
  pose proof (truthy_nonempty domain Hne) as Htruthy.
  rewrite Hcdn, Htruthy.
  repeat case_match; intros; simplify_eq/=.
  eexists. split; [done|]. split; [done|].
  unfold S3_getRecordingUrl. js_unfold.
  by rewrite Hcdn, (truthy_nonempty domain Hne).
Qed.

End Urls.
End SavedFacts.


Lemma saved_recording_is_served_until_deleted_witness :
  let run := Local_saveRecording fixed_clock ∅ media "./media/temp/abc123.flv"
               "abc123" no_metadata (capture_ready None) in
  let name := saved_name fixed_clock "abc123" (now (capture_ready None)) in
  let dest := path_join (recordingsPath media) name in
  (∃ u, url (result_of run.1) = Some u ∧
        Local_getRecordingUrl ∅ media name run.2 = (Fulfilled u, run.2)) ∧
  (In_dec_str dest (readonly (capture_ready None)) = false →
   ∃ w'', Local_deleteRecording media name run.2 = (Fulfilled true, w'') ∧
     lookup_path dest (files w'') = None ∧
     Local_getRecordingUrl ∅ media name w'' =
       (Rejected ("Recording not found: " +:+ name), w'') ∧
     Local_deleteRecording media name w'' = (Fulfilled false, w'')).
Proof.
  apply (saved_recording_is_served_until_deleted fixed_clock ∅ media
           "./media/temp/abc123.flv" "abc123" no_metadata (capture_ready None)).
  - reflexivity.
  - reflexivity.
Defined.

Lemma failed_save_keeps_the_capture_witness :
  let run := saveRecording fixed_clock ∅ (Local media) "./media/temp/abc123.flv"
               "abc123" no_metadata locked_capture in
  (∀ p, is_Some (lookup_path p (files locked_capture)) →
        lookup_path p (files run.2) = lookup_path p (files locked_capture)) ∧
  filePath (result_of run.1) = None ∧ url (result_of run.1) = None ∧
  metadata (result_of run.1) =
    {| streamKey := "abc123"; fileName := ""; fileSize := 0;
       duration := None; quality := None; thumbnailPath := None;
       uploadTime := now locked_capture |} ∧
  (buckets run.2 = buckets locked_capture ∨
   (∃ this, Local media = S3 this) ∧
   is_Some (blocked "./media/temp/abc123.flv" locked_capture)).
Proof.
  apply (failed_save_keeps_the_capture fixed_clock ∅ (Local media)
           "./media/temp/abc123.flv" "abc123" no_metadata locked_capture).
  - reflexivity.
  - reflexivity.
Defined.

Lemma upload_outlives_failed_cleanup_witness :
  ∃ r w', S3_saveRecording fixed_clock recordings_bucket "./media/temp/abc123.flv"
            "abc123" no_metadata locked_capture = (Fulfilled r, w') ∧
    success r = false ∧ filePath r = None ∧
    lookup_path "./media/temp/abc123.flv" (files w')
      = Some {| size := 10; birthtime := 5 |} ∧
    persisted (S3 recordings_bucket) w'
      (saved_key fixed_clock recordings_bucket "abc123" (now locked_capture))
      = Some (size {| size := 10; birthtime := 5 |}).
Proof.
  apply (upload_outlives_failed_cleanup fixed_clock recordings_bucket
           "./media/temp/abc123.flv" "abc123" no_metadata locked_capture
           {| size := 10; birthtime := 5 |} ∅).
  - reflexivity.
  - reflexivity.
  - reflexivity.
  - reflexivity.
Defined.

Lemma cdn_url_of_saved_recording_witness :
  let run := S3_saveRecording fixed_clock cdn_bucket "./media/temp/abc123.flv"
               "abc123" no_metadata (capture_ready None) in
  ∃ s3Key, filePath (result_of run.1) = Some s3Key ∧
    url (result_of run.1) = Some ("https://" +:+ "cdn.example.com" +:+ "/" +:+ s3Key) ∧
    S3_getRecordingUrl (λ _ _ _, Rejected "no credentials") cdn_bucket s3Key None
        two_objects =
      (Fulfilled ("https://" +:+ "cdn.example.com" +:+ "/" +:+ s3Key), two_objects).
Proof.
  apply (cdn_url_of_saved_recording fixed_clock (λ _ _ _, Rejected "no credentials")
           cdn_bucket "cdn.example.com" "./media/temp/abc123.flv" "abc123"
           no_metadata (capture_ready None)
           (S3_saveRecording fixed_clock cdn_bucket "./media/temp/abc123.flv"
              "abc123" no_metadata (capture_ready None)).2
           two_objects).
  - reflexivity.
  - discriminate.
  - reflexivity.
  - reflexivity.
Defined.

(** *** getStorageInfo of the remote backend *)

Lemma add_sizes_app (used : Z) (l1 l2 : list (string * S3Object)) :
  add_sizes used (l1 ++ l2) = add_sizes (add_sizes used l1) l2.
Proof. unfold add_sizes. apply fold_left_app. Qed.

Lemma add_sizes_foldr (used : Z) (l : list (string * S3Object)) :
  add_sizes used l = used + foldr (λ o total, ContentLength o.2 + total) 0 l.
Proof.
  revert used. induction l as [|o l IH]; intros used; simpl; [lia|].
  unfold add_sizes in *. simpl. rewrite IH. lia.
Qed.

Lemma add_sizes_listing (prefix : string) (objs : gmap string S3Object) :
  add_sizes 0 (listing prefix objs) = stored_size prefix objs.
Proof.
  unfold stored_size, listing. rewrite map_fold_foldr, add_sizes_foldr.
  rewrite Z.add_0_l.
  induction (map_to_list objs) as [|[k o] l IH]; simpl; [done|].
  destruct (startsWith k prefix); simpl; by rewrite IH.
Qed.

(** the loop from any page on: it adds up what the listing still holds *)
Lemma pages_loop_spec {R} (turns : nat) (this : S3Storage) (used : Z)
    (token : option nat) (w : World) (objs : gmap string S3Object) :
  s3_failure w = None →
  buckets w !! bucketName this = Some objs →
  let all := listing (recordingsPrefix this) objs in
  let start := default 0%nat token in
  (0 < turns)%nat →
  (length all - start ≤ turns * MaxKeys_default)%nat →
  pages_loop (R := R) turns this used token w =
    (Normal (Some (add_sizes used (drop start all))), w).
Proof.
  intros Hup Hb all. revert used token.
  induction turns as [|turns IH]; intros used token start Hpos Hlen; [lia|].
  simpl. unfold s3_listObjectsV2. js_unfold. rewrite Hup, Hb. simpl.
  fold all. fold start.
  destruct (Nat.ltb (start + MaxKeys_default) (length all)) eqn:Hmore; simpl.
  - apply Nat.ltb_lt in Hmore.
    rewrite IH; simpl; [|unfold MaxKeys_default in *; lia..].
    rewrite <- add_sizes_app, <- drop_drop, take_drop. done.
  - apply Nat.ltb_ge in Hmore.
    rewrite take_ge; [done|]. rewrite length_drop. lia.
Qed.

(** when the store cannot be asked, the usage is reported as 0 of 0 *)
Lemma S3_usage_unreachable (turns : nat) (this : S3Storage) (w : World) :
  (0 < turns)%nat →
  s3_failure w ≠ None ∨ buckets w !! bucketName this = None →
  S3_getStorageInfo turns this w =
    (Fulfilled (Some {| used := 0; available := 0 |}), w).
Proof.
  intros Hpos Hdown. unfold S3_getStorageInfo. js_unfold.
  destruct turns as [|turns]; [lia|]. simpl.
  unfold s3_listObjectsV2. js_unfold.
  destruct (s3_failure w) as [e|]; [done|].
  destruct Hdown as [?| ->]; done.
Qed.

(** X15: with the store reachable, [S3Storage.getStorageInfo] comes to its
    end once it has asked for every page of the listing (pages of 1000
    keys), changes nothing, and reports as used the sizes of all the objects
    of the bucket whose key starts with the recordings prefix, however many
    pages they fill, and [Number.MAX_SAFE_INTEGER] as available. *)
Theorem S3_usage_adds_up_all_pages (turns : nat) (this : S3Storage) (w : World)
    (objs : gmap string S3Object) :
  s3_failure w = None →
  buckets w !! bucketName this = Some objs →
  (0 < turns)%nat →
  (length (listing (recordingsPrefix this) objs) ≤ turns * MaxKeys_default)%nat →
  S3_getStorageInfo turns this w =
    (Fulfilled (Some {| used := stored_size (recordingsPrefix this) objs;
                        available := 9007199254740991 |}), w).
Proof.
  intros Hup Hb Hpos Hlen. unfold S3_getStorageInfo. js_unfold.
  rewrite (pages_loop_spec _ _ _ _ _ objs) by (simpl; first [done | lia]).
  cbn [default]. by rewrite drop_0, add_sizes_listing.
Qed.

Lemma S3_usage_adds_up_all_pages_witness :
  let objs : gmap string S3Object :=
    {[ "recordings/abc/abc_1.flv" := flv_object 10;
       "recordings/xyz/xyz_1.flv" := flv_object 20;
       "thumbnails/abc.jpg" := flv_object 5 ]} in
  S3_getStorageInfo 1 recordings_bucket two_objects =
    (Fulfilled (Some {| used := stored_size (recordingsPrefix recordings_bucket) objs;
                        available := 9007199254740991 |}), two_objects) ∧
  stored_size (recordingsPrefix recordings_bucket) objs = 30.
Proof.
  split.
  - apply (S3_usage_adds_up_all_pages 1 recordings_bucket two_objects).
    + reflexivity.
    + reflexivity.
    + lia.
    + apply Nat.leb_le. vm_compute. reflexivity.
  - vm_compute. reflexivity.
Defined.

(** *** deleteRecording and the directories of the local backend *)

Lemma length_append (a b : string) :
  String.length (a +:+ b) = (String.length a + String.length b)%nat.
Proof.
  induction a as [|c a IH]; [done|]. rewrite app_cons. simpl. by rewrite IH.
Qed.

(** a directory lies neither at nor below one of its entries *)
Lemma under_parent (dir n : string) : under (path_join dir n) dir = false.
Proof.
  unfold under, path_join. apply orb_false_iff. split.
  - apply String.eqb_neq. intros Heq.
    assert (String.length (dir +:+ "/" +:+ n) = String.length dir) as Hlen
      by (by rewrite Heq).
    rewrite !length_append in Hlen. simpl in Hlen. lia.
  - apply bool_decide_eq_false_2. intros [r Hr%strip_Some].
    assert (String.length dir
            = String.length (((dir +:+ "/" +:+ n) +:+ "/") +:+ r)) as Hlen
      by (by rewrite <- Hr).
    rewrite !length_append in Hlen. simpl in Hlen. lia.
Qed.

(** X16: for a plain file name, [LocalStorage.deleteRecording] never
    rejects, and whatever it answers it leaves every other entry of the
    recordings directory, the directory itself and the bucket as they were.
    When it answers [true] the entry was there and is gone; when it answers
    [false] the entry is what it was before the call. *)
Theorem Local_delete_keeps_the_others (this : LocalStorage) (n n' : string)
    (w : World) :
  plain_name n = true → plain_name n' = true → n ≠ n' →
  ∃ deleted w', Local_deleteRecording this n w = (Fulfilled deleted, w') ∧
    lookup_path (path_join (recordingsPath this) n') (files w') =
      lookup_path (path_join (recordingsPath this) n') (files w) ∧
    lookup_path (recordingsPath this) (files w') =
      lookup_path (recordingsPath this) (files w) ∧
    buckets w' = buckets w ∧
    if deleted
    then is_Some (lookup_path (path_join (recordingsPath this) n) (files w)) ∧
         lookup_path (path_join (recordingsPath this) n) (files w') = None
    else lookup_path (path_join (recordingsPath this) n) (files w') =
           lookup_path (path_join (recordingsPath this) n) (files w).
Proof.
  intros _ Hn' Hne.
  assert (is_name n' = true) as Hname.
  { unfold plain_name in Hn'. rewrite !andb_true_iff in Hn'.
    by destruct Hn' as [[[? _] _] _]. }
  unfold Local_deleteRecording. fs_unfold. js_unfold. simpl.
  destruct (lookup_path (path_join (recordingsPath this) n) (files w))
    as [st|] eqn:Hn; simpl; [|by eexists _, _; rewrite Hn].
  rewrite Hn.
  destruct (blocked (path_join (recordingsPath this) n) w); simpl;
    [by eexists _, _; rewrite Hn|].
  eexists _, _. split; [done|]. simpl.
  rewrite !(lookup_path_filter
              (λ q, negb (under (path_join (recordingsPath this) n) q))).
  rewrite (under_sibling _ n n') by done.
  rewrite under_parent, under_refl. simpl. by eauto 10.
Qed.

Lemma Local_delete_keeps_the_others_witness :
  ∃ deleted w',
    Local_deleteRecording media "old.flv" two_recordings = (Fulfilled deleted, w') ∧
    lookup_path (path_join (recordingsPath media) "new.flv") (files w') =
      lookup_path (path_join (recordingsPath media) "new.flv") (files two_recordings) ∧
    lookup_path (recordingsPath media) (files w') =
      lookup_path (recordingsPath media) (files two_recordings) ∧
    buckets w' = buckets two_recordings ∧
    if deleted
    then is_Some (lookup_path (path_join (recordingsPath media) "old.flv")
                    (files two_recordings)) ∧
         lookup_path (path_join (recordingsPath media) "old.flv") (files w') = None
    else lookup_path (path_join (recordingsPath media) "old.flv") (files w') =
           lookup_path (path_join (recordingsPath media) "old.flv")
             (files two_recordings).
Proof.
  apply (Local_delete_keeps_the_others media "old.flv" "new.flv" two_recordings).
  - reflexivity.
  - reflexivity.
  - discriminate.
Defined.

Lemma ensureDir_spec (p : string) (w : World) :
  ∃ w', fs_ensureDir p w = (Fulfilled tt, w') ∧
    is_Some (lookup_path p (files w')) ∧
    (∀ q, is_Some (lookup_path q (files w)) →
          lookup_path q (files w') = lookup_path q (files w)) ∧
    (is_Some (lookup_path p (files w)) → w' = w) ∧
    readonly w' = readonly w ∧ buckets w' = buckets w.
Proof.
  unfold fs_ensureDir.
  destruct (lookup_path p (files w)) as [st|] eqn:Hp.
  - exists w. by split_and!.
  - eexists. split; [done|]. simpl. split_and!; try done.
    + rewrite lookup_path_snoc, Hp, String.eqb_refl. eauto.
    + intros q [st Hq]. by rewrite lookup_path_snoc, Hq.
Qed.

Lemma initializeDirectories_run (this : LocalStorage) (w : World) :
  ∃ w', initializeDirectories this w = (Fulfilled tt, w') ∧
    is_Some (lookup_path (recordingsPath this) (files w')) ∧
    is_Some (lookup_path (tempPath this) (files w')) ∧
    is_Some (lookup_path (path_join (recordingsPath this) "thumbnails") (files w')) ∧
    (∀ q, is_Some (lookup_path q (files w)) →
          lookup_path q (files w') = lookup_path q (files w)) ∧
    (is_Some (lookup_path (recordingsPath this) (files w)) →
     is_Some (lookup_path (tempPath this) (files w)) →
     is_Some (lookup_path (path_join (recordingsPath this) "thumbnails") (files w)) →
     w' = w).
Proof.
  destruct (ensureDir_spec (recordingsPath this) w)
    as (w1 & H1 & Hd1 & Hk1 & Hs1 & _).
  destruct (ensureDir_spec (tempPath this) w1)
    as (w2 & H2 & Hd2 & Hk2 & Hs2 & _).
  destruct (ensureDir_spec (path_join (recordingsPath this) "thumbnails") w2)
    as (w3 & H3 & Hd3 & Hk3 & Hs3 & _).
  exists w3. split_and!.
  - unfold initializeDirectories. js_unfold. by rewrite H1, H2, H3.
  - rewrite Hk3, Hk2; [done|done|]. by rewrite Hk2.
  - by rewrite Hk3.
  - done.
  - intros q Hq.
    assert (is_Some (lookup_path q (files w1))) as Hq1 by (by rewrite Hk1).
    assert (is_Some (lookup_path q (files w2))) as Hq2 by (by rewrite Hk2).
    by rewrite Hk3, Hk2, Hk1.
  - intros Hr Ht Hth.
    rewrite (Hs1 Hr) in *. rewrite (Hs2 Ht) in *. by rewrite (Hs3 Hth).
Qed.

(** X17: where directories can be created, [initializeDirectories] fulfils
    and leaves the recordings directory, the temp directory and the
    thumbnails directory in place; what existed before is kept as it was,
    and a second run changes nothing. *)
Theorem initializeDirectories_is_idempotent (this : LocalStorage) (w : World) :
  let run := initializeDirectories this w in
  run.1 = Fulfilled tt ∧
  is_Some (lookup_path (recordingsPath this) (files run.2)) ∧
  is_Some (lookup_path (tempPath this) (files run.2)) ∧
  is_Some (lookup_path (path_join (recordingsPath this) "thumbnails")
             (files run.2)) ∧
  (∀ q, is_Some (lookup_path q (files w)) →
        lookup_path q (files run.2) = lookup_path q (files w)) ∧
  initializeDirectories this run.2 = (Fulfilled tt, run.2).
Proof.
  destruct (initializeDirectories_run this w)
    as (w' & -> & Hrec & Htmp & Hth & Hkeep & _).
  destruct (initializeDirectories_run this w')
    as (w'' & Hagain & _ & _ & _ & _ & Hsame).
  rewrite (Hsame Hrec Htmp Hth) in Hagain. simpl. by split_and!.
Qed.

(** *** The factory *)

Lemma LocalStorage_new_returns (env : gmap string string) (w : World) :
  ∃ this w', LocalStorage_new env (R := BaseStorage) w = (Normal this, w') ∧
    buckets w' = buckets w.
Proof.
  unfold LocalStorage_new, initializeDirectories. fs_unfold. js_unfold. simpl.
  repeat (case_match; simplify_eq/=); eauto.
Qed.

Lemma S3Storage_new_keeps_buckets (env : gmap string string) (w : World) :
  ∃ this w', S3Storage_new env (R := BaseStorage) w = (Normal this, w') ∧
    buckets w' = buckets w ∧ files w' = files w.
Proof.
  unfold S3Storage_new, verifyConnection. fs_unfold. js_unfold. simpl.
  repeat (case_match; simplify_eq/=); eauto.
Qed.

(** X18: [StorageFactory.createStorage] returns a backend in every
    environment and every state of the outside world, and writes nothing to
    the bucket. The backend is the remote one exactly when [STORAGE_TYPE] is
    set to [s3] in some spelling of upper and lower case; an absent, empty or
    unknown value gives the local backend. *)
Theorem createStorage_selects_backend (env : gmap string string) (w : World) :
  ∃ storage w', createStorage env w = (Return storage, w') ∧
    buckets w' = buckets w ∧
    ((∃ this, storage = S3 this) ↔
     ∃ v, env !! "STORAGE_TYPE" = Some v ∧ toLowerCase v = "s3").
Proof.
  destruct (LocalStorage_new_returns env w) as (l & wl & Hl & Hlb).
  destruct (S3Storage_new_keeps_buckets env w) as (r & wr & Hr & Hrb & _).
  unfold createStorage, getenv, js_or, interpolate.
  destruct (env !! "STORAGE_TYPE") as [v|] eqn:Hv; simpl.
  - destruct (String.eqb v "") eqn:Hempty; simpl.
    + apply String.eqb_eq in Hempty as ->.
      js_unfold. rewrite Hl. exists (Local l), wl. split_and!; try done.
      split; [by intros [? ?] | by intros (? & [= <-] & ?)].
    + destruct (String.eqb (toLowerCase v) "local") eqn:Hlocal.
      * apply String.eqb_eq in Hlocal.
        js_unfold. rewrite Hl. exists (Local l), wl. split_and!; try done.
        split; [by intros [? ?] |]. intros (? & [= <-] & ?). congruence.
      * destruct (String.eqb (toLowerCase v) "s3") eqn:Hs3.
        -- apply String.eqb_eq in Hs3.
           js_unfold. rewrite Hr. exists (S3 r), wr. split_and!; try done.
           split; eauto.
        -- apply String.eqb_neq in Hs3.
           js_unfold. rewrite Hl. exists (Local l), wl. split_and!; try done.
           split; [by intros [? ?] |]. intros (? & [= <-] & ?). congruence.
  - js_unfold. rewrite Hl. exists (Local l), wl. split_and!; try done.
    split; [by intros [? ?] | by intros (? & ? & ?)].
Qed.

End StorageFacts.

(** ** The load-test viewer *)

Module ViewerFacts.
Import Viewer.

(** *** Tag sizes *)

Lemma at_byte (b : list Byte.byte) (i : nat) : (0 ≤ at_ b i < 256)%Z.
Proof.
  unfold at_. pose proof (Byte.to_N_bounded (nth i b Byte.x00)). lia.
Qed.

Lemma byte_high_bits (x n : Z) :
  (0 ≤ x < 256)%Z → (8 ≤ n)%Z → Z.testbit x n = false.
Proof.
  intros Hx Hn. destruct (decide (x = 0)) as [->|Hne]; [apply Z.bits_0|].
  apply Z.bits_above_log2; [lia|].
  assert (Z.log2 x < 8)%Z; [|lia]. apply Z.log2_lt_pow2; lia.
Qed.

(** the three size bytes do not overlap once shifted: or-ing them adds them *)
Lemma lor_bytes (x y z : Z) :
  (0 ≤ x < 256)%Z → (0 ≤ y < 256)%Z → (0 ≤ z < 256)%Z →
  Z.lor (Z.lor (Z.shiftl x 16) (Z.shiftl y 8)) z = (65536 * x + 256 * y + z)%Z.
Proof.
  intros Hx Hy Hz.
  assert (Z.land (Z.shiftl x 16) (Z.shiftl y 8) = 0) as H1.
  { apply Z.bits_inj'. intros n Hn.
    rewrite Z.land_spec, !Z.shiftl_spec, Z.bits_0 by done.
    destruct (decide (n < 16)%Z).
    - rewrite (Z.testbit_neg_r x) by lia. done.
    - rewrite (byte_high_bits y) by lia. apply andb_false_r. }
  assert (Z.land (Z.lor (Z.shiftl x 16) (Z.shiftl y 8)) z = 0) as H2.
  { apply Z.bits_inj'. intros n Hn.
    rewrite Z.land_spec, Z.lor_spec, !Z.shiftl_spec, Z.bits_0 by done.
    destruct (decide (n < 8)%Z).
    - rewrite (Z.testbit_neg_r x), (Z.testbit_neg_r y) by lia. done.
    - rewrite (byte_high_bits z) by lia. apply andb_false_r. }
  rewrite <- (Z.lxor_lor _ _ H2), <- (Z.add_nocarry_lxor _ _ H2).
  rewrite <- (Z.lxor_lor _ _ H1), <- (Z.add_nocarry_lxor _ _ H1).
  rewrite !Z.shiftl_mul_pow2 by lia. lia.
Qed.

Lemma dataSize_value (b : list Byte.byte) :
  dataSize b = (65536 * at_ b 1 + 256 * at_ b 2 + at_ b 3)%Z.
Proof. unfold dataSize. apply lor_bytes; apply at_byte. Qed.

Lemma totalTagSize_min (b : list Byte.byte) : (15 ≤ totalTagSize b)%Z.
Proof.
  unfold totalTagSize. rewrite dataSize_value.
  pose proof (at_byte b 1). pose proof (at_byte b 2). pose proof (at_byte b 3).
  lia.
Qed.

Lemma frameType_div (tag : list Byte.byte) :
  frameType tag = Z.of_N (Byte.to_N (nth 11 tag Byte.x00)) / 16.
Proof. unfold frameType, at_. by destruct (nth 11 tag Byte.x00). Qed.

(** *** The loop, turn by turn *)

Lemma tags_loop_S (n : nat) (v : Viewer) :
  tags_loop (S n) v = if complete (buffer v) then tags_loop n (take_tag v) else v.
Proof.
  cbn [tags_loop]. unfold complete, take_tag.
  destruct (Nat.leb 15 (length (buffer v))); cbn [andb]; [|done].
  by destruct (Z.ltb (Z.of_nat (length (buffer v))) (totalTagSize (buffer v))).
Qed.

Lemma complete_length (b : list Byte.byte) :
  complete b = true →
  (15 ≤ length b)%nat ∧ (Z.to_nat (totalTagSize b) ≤ length b)%nat ∧
  (15 ≤ Z.to_nat (totalTagSize b))%nat.
Proof.
  unfold complete. intros [H1 H2]%andb_true_iff.
  apply Nat.leb_le in H1. apply negb_true_iff, Z.ltb_ge in H2.
  pose proof (totalTagSize_min b). lia.
Qed.

(** a turn that takes a tag shortens the buffer by 15 bytes at least *)
Lemma take_tag_length (v : Viewer) :
  complete (buffer v) = true →
  (length (buffer (take_tag v)) + 15 ≤ length (buffer v))%nat.
Proof.
  intros (? & ? & ?)%complete_length. unfold take_tag. simpl.
  rewrite length_drop. lia.
Qed.

(** so the loop has left before the turns [on_data] gives it are used up:
    any greater number of turns gives the same result *)
Lemma tags_loop_enough (n : nat) (v : Viewer) :
  (length (buffer v) ≤ n)%nat → tags_loop n v = drain v.
Proof.
  unfold drain. revert v.
  induction n as [n IH] using lt_wf_ind. intros v Hn.
  destruct n as [|n].
  { assert (length (buffer v) = 0%nat) as -> by lia. done. }
  destruct (length (buffer v)) as [|m] eqn:Hlen.
  { rewrite tags_loop_S. unfold complete. by rewrite Hlen. }
  rewrite !tags_loop_S.
  destruct (complete (buffer v)) eqn:Hc; [|done].
  pose proof (take_tag_length v Hc).
  rewrite (IH n) by lia. rewrite (IH m) by lia. done.
Qed.

Lemma drain_unfold (v : Viewer) :
  drain v = if complete (buffer v) then drain (take_tag v) else v.
Proof.
  unfold drain at 1.
  destruct (length (buffer v)) as [|m] eqn:Hlen.
  { unfold complete. by rewrite Hlen. }
  rewrite tags_loop_S.
  destruct (complete (buffer v)) eqn:Hc; [|done].
  pose proof (take_tag_length v Hc). apply tags_loop_enough. lia.
Qed.

(** induction along the turns of the loop *)
Lemma drain_ind (P : Viewer → Prop) :
  (∀ v, complete (buffer v) = false → P v) →
  (∀ v, complete (buffer v) = true → P (take_tag v) → P v) →
  ∀ v, P v.
Proof.
  intros Hstop Hturn v.
  remember (length (buffer v)) as n eqn:Hn. revert v Hn.
  induction n as [n IH] using lt_wf_ind. intros v ->.
  destruct (complete (buffer v)) eqn:Hc; [|by apply Hstop].
  apply Hturn; [done|]. pose proof (take_tag_length v Hc).
  by apply (IH (length (buffer (take_tag v)))); [lia|].
Qed.

Lemma drain_short (v : Viewer) : (length (buffer v) < 15)%nat → drain v = v.
Proof.
  intros Hlen. rewrite drain_unfold. unfold complete.
  by rewrite (proj2 (Nat.leb_gt _ _)).
Qed.

Lemma drain_headerParsed (v : Viewer) : headerParsed (drain v) = headerParsed v.
Proof.
  induction v as [v Hc|v Hc IH] using drain_ind; rewrite drain_unfold, Hc; [done|].
  by rewrite IH.
Qed.

(** *** Bytes that arrive later *)

Lemma at_app (b c : list Byte.byte) (i : nat) :
  (i < length b)%nat → at_ (b ++ c) i = at_ b i.
Proof. intros Hi. unfold at_. by rewrite app_nth1. Qed.

Lemma totalTagSize_app (b c : list Byte.byte) :
  (15 ≤ length b)%nat → totalTagSize (b ++ c) = totalTagSize b.
Proof.
  intros Hb. unfold totalTagSize, dataSize. by rewrite !at_app by lia.
Qed.

Lemma complete_app (b c : list Byte.byte) :
  complete b = true → complete (b ++ c) = true.
Proof.
  intros Hc. pose proof (complete_length b Hc) as (H15 & Htot & _).
  unfold complete. rewrite totalTagSize_app by done.
  apply andb_true_iff. split.
  - apply Nat.leb_le. rewrite length_app. lia.
  - apply negb_true_iff, Z.ltb_ge. rewrite length_app.
    pose proof (totalTagSize_min b). lia.
Qed.

Lemma take_tag_extend (v : Viewer) (c : list Byte.byte) :
  complete (buffer v) = true → take_tag (extend v c) = extend (take_tag v) c.
Proof.
  intros Hc. pose proof (complete_length _ Hc) as (H15 & Htot & _).
  unfold take_tag, extend. simpl.
  rewrite totalTagSize_app by done.
  rewrite take_app_le, drop_app_le by done.
  rewrite at_app by lia. done.
Qed.

(** the loop takes the same tags whether the rest of the stream has arrived
    or not *)
Lemma drain_extend (v : Viewer) (c : list Byte.byte) :
  drain (extend (drain v) c) = drain (extend v c).
Proof.
  induction v as [v Hc|v Hc IH] using drain_ind.
  - by rewrite (drain_unfold v), Hc.
  - rewrite (drain_unfold v), Hc, IH.
    rewrite (drain_unfold (extend v c)). simpl.
    by rewrite (complete_app _ _ Hc), take_tag_extend.
Qed.

Lemma on_data_drain (chunk : list Byte.byte) (v : Viewer) :
  on_data chunk v =
    drain (if negb (headerParsed v) && Nat.leb 13 (length (buffer v ++ chunk))
           then {| buffer := drop 13 (buffer v ++ chunk); headerParsed := true;
                   tags := tags v; waits := waits v |}
           else extend v chunk).
Proof. unfold on_data, drain, extend. by destruct (_ && _). Qed.

Lemma on_data_parsed (chunk : list Byte.byte) (v : Viewer) :
  headerParsed v = true → on_data chunk v = drain (extend v chunk).
Proof. intros Hh. by rewrite on_data_drain, Hh. Qed.

Lemma on_data_connected (stream : list Byte.byte) :
  on_data stream connected =
    drain (if Nat.leb 13 (length stream)
           then {| buffer := drop 13 stream; headerParsed := true;
                   tags := []; waits := 0 |}
           else {| buffer := stream; headerParsed := false;
                   tags := []; waits := 0 |}).
Proof. by rewrite on_data_drain. Qed.

(** two chunks handled one after the other leave the viewer as the two
    handled as one *)
Lemma on_data_app (c1 c2 : list Byte.byte) (v : Viewer) :
  on_data c2 (on_data c1 v) = on_data (c1 ++ c2) v.
Proof.
  destruct (headerParsed v) eqn:Hh.
  - rewrite (on_data_parsed c1 v), (on_data_parsed (c1 ++ c2) v) by done.
    rewrite on_data_parsed by (by rewrite drain_headerParsed).
    rewrite drain_extend. unfold extend. simpl. by rewrite app_assoc.
  - rewrite (on_data_drain c1 v), (on_data_drain (c1 ++ c2) v), Hh.
    cbn [negb andb].
    destruct (Nat.leb 13 (length (buffer v ++ c1))) eqn:H13.
    + apply Nat.leb_le in H13. lazy beta iota.
      rewrite on_data_parsed by (by rewrite drain_headerParsed).
      rewrite drain_extend.
      rewrite (proj2 (Nat.leb_le _ _)) by (rewrite app_assoc, length_app; lia).
      unfold extend. cbn [buffer headerParsed tags waits].
      by rewrite (app_assoc (buffer v)), (drop_app_le _ _ _ H13).
    + apply Nat.leb_gt in H13. lazy beta iota.
      rewrite (drain_short (extend v c1)) by (simpl; lia).
      rewrite on_data_drain. simpl buffer. simpl headerParsed.
      rewrite Hh. cbn [negb andb]. unfold extend.
      cbn [buffer headerParsed tags waits]. by rewrite <- !app_assoc.
Qed.

Lemma receive_snoc (chunks : list (list Byte.byte)) (c : list Byte.byte) (v : Viewer) :
  receive (chunks ++ [c]) v = on_data c (receive chunks v).
Proof. unfold receive. by rewrite foldl_app. Qed.

Lemma receive_concat (chunks : list (list Byte.byte)) :
  receive chunks connected = on_data (concat chunks) connected.
Proof.
  induction chunks as [|c chunks IH] using rev_ind; [done|].
  rewrite receive_snoc, IH, on_data_app, concat_app. simpl.
  by rewrite app_nil_r.
Qed.

(** X19: the way the response is cut into chunks makes no difference to the
    viewer: two sequences of chunks that carry the same bytes leave it with
    the same buffer, the same tags taken and the same number of waits. *)
Theorem chunks_do_not_matter (chunks chunks' : list (list Byte.byte)) :
  concat chunks = concat chunks' →
  receive chunks connected = receive chunks' connected.
Proof. intros Heq. by rewrite !receive_concat, Heq. Qed.

Lemma chunks_do_not_matter_witness :
  receive [take 5 sample_stream; drop 5 sample_stream] connected =
  receive [take 20 sample_stream; take 3 (drop 20 sample_stream);
           drop 23 sample_stream] connected.
Proof.
  apply (chunks_do_not_matter
           [take 5 sample_stream; drop 5 sample_stream]
           [take 20 sample_stream; take 3 (drop 20 sample_stream);
            drop 23 sample_stream]).
  reflexivity.
Defined.

(** *** What the loop takes *)

Lemma at_take (b : list Byte.byte) (n i : nat) :
  (i < n)%nat → at_ (take n b) i = at_ b i.
Proof.
  intros Hi. unfold at_. f_equal. f_equal.
  rewrite <- (take_drop n b) at 2.
  destruct (decide (i < length (take n b))%nat) as [Hin|Hout].
  - by rewrite app_nth1.
  - rewrite length_take in Hout.
    rewrite !nth_overflow; [done| |rewrite length_take; lia].
    rewrite length_app, length_take, length_drop. lia.
Qed.

Lemma totalTagSize_take (b : list Byte.byte) (n : nat) :
  (15 ≤ n)%nat → totalTagSize (take n b) = totalTagSize b.
Proof.
  intros Hn. unfold totalTagSize, dataSize. by rewrite !at_take by lia.
Qed.

Lemma is_key_frame_take (b : list Byte.byte) (n : nat) :
  (15 ≤ n)%nat →
  is_key_frame (take n b) =
    Z.eqb (at_ b 0) 9 && Z.eqb (frameType (take n b)) 1.
Proof.
  intros Hn. unfold is_key_frame. by rewrite at_take, <- frameType_div by lia.
Qed.

Lemma starved_incomplete (b : list Byte.byte) : complete b = false → starved b.
Proof.
  unfold complete, starved. intros [H|H]%andb_false_iff.
  - left. by apply Nat.leb_gt.
  - right. by apply Z.ltb_lt, negb_false_iff.
Qed.

Lemma well_cut_total (tag : list Byte.byte) :
  Z.of_nat (length tag) = totalTagSize tag → well_cut tag.
Proof.
  unfold well_cut, totalTagSize. by rewrite dataSize_value.
Qed.

Lemma drain_frames (v : Viewer) :
  ∃ new, tags (drain v) = (tags v ++ new)%list ∧
    (concat new ++ buffer (drain v))%list = buffer v ∧
    Forall well_cut new ∧
    waits (drain v) = (waits v + length (List.filter is_key_frame new))%nat ∧
    starved (buffer (drain v)) ∧
    headerParsed (drain v) = headerParsed v.
Proof.
  induction v as [v Hc|v Hc (new & Htags & Hbuf & Hall & Hwaits & Hst & Hh)]
    using drain_ind; rewrite drain_unfold, Hc.
  - exists []. rewrite app_nil_r. simpl. split_and!; try done.
    by apply starved_incomplete.
  - pose proof (complete_length _ Hc) as (H15 & Htot & H15').
    exists (take (Z.to_nat (totalTagSize (buffer v))) (buffer v) :: new).
    split_and!; try done.
    + rewrite Htags. simpl. by rewrite <- app_assoc.
    + simpl. rewrite <- app_assoc, Hbuf. simpl. apply take_drop.
    + constructor; [|done]. apply well_cut_total.
      rewrite length_take, totalTagSize_take by done.
      pose proof (totalTagSize_min (buffer v)). lia.
    + rewrite Hwaits. cbn [List.filter]. unfold take_tag. cbn [waits buffer].
      rewrite is_key_frame_take by done.
      destruct (_ && _); simpl; lia.
Qed.

(** X20: what the viewer has done with a response, however it was chunked.
    As long as fewer than 13 bytes have arrived it has only buffered them.
    From then on the header is taken, and the 13 bytes of the header, the
    tags taken so far and the buffer, put end to end, are the bytes
    received: nothing is lost, repeated or reordered. Every tag taken has
    the length its size bytes call for, the buffer holds less than one whole
    tag, and the viewer has waited once for each video tag that starts a key
    frame. *)
Theorem stream_is_cut_into_tags (chunks : list (list Byte.byte)) :
  let stream := concat chunks in
  let v := receive chunks connected in
  if Nat.ltb (length stream) 13 then
    v = {| buffer := stream; headerParsed := false; tags := []; waits := 0 |}
  else
    headerParsed v = true ∧
    (take 13 stream ++ concat (tags v) ++ buffer v)%list = stream ∧
    Forall well_cut (tags v) ∧
    starved (buffer v) ∧
    waits v = length (List.filter is_key_frame (tags v)).
Proof.
  intros stream v. subst v. rewrite receive_concat. fold stream.
  rewrite on_data_connected.
  destruct (Nat.ltb (length stream) 13) eqn:Hlen.
  - apply Nat.ltb_lt in Hlen. rewrite (proj2 (Nat.leb_gt _ _)) by done.
    apply drain_short. simpl. lia.
  - apply Nat.ltb_ge in Hlen. rewrite (proj2 (Nat.leb_le _ _)) by done.
    match goal with |- context [drain ?x] =>
      destruct (drain_frames x) as (new & Htags & Hbuf & Hall & Hwaits & Hst & Hh)
    end.
    cbn [tags waits buffer headerParsed app Nat.add] in Htags, Hbuf, Hwaits, Hh.
    rewrite Htags, Hh, Hwaits.
    split_and!; try done.
    rewrite Hbuf. apply take_drop.
Qed.

Lemma stream_is_cut_into_tags_witness :
  let chunks := [take 5 sample_stream; drop 5 sample_stream] in
  let stream := concat chunks in
  let v := receive chunks connected in
  (headerParsed v = true ∧
   (take 13 stream ++ concat (tags v) ++ buffer v)%list = stream ∧
   Forall well_cut (tags v) ∧
   starved (buffer v) ∧
   waits v = length (List.filter is_key_frame (tags v))) ∧
  tags v = [sample_key_frame] ∧ waits v = 1%nat ∧
  buffer v = [Byte.x08; Byte.x00].
Proof.
  split.
  - exact (stream_is_cut_into_tags [take 5 sample_stream; drop 5 sample_stream]).
  - split_and!; reflexivity.
Defined.

(** *** Ramp-up *)

Lemma ramp_step_spec (turns : nat) (t : LoadTest) :
  ramp_step turns t =
    {| activeViewers :=
         activeViewers t + Nat.min turns (MAX_VIEWERS - activeViewers t);
       conns := (conns t ++ seq (activeViewers t)
                              (Nat.min turns (MAX_VIEWERS - activeViewers t)))%list;
       intervals := intervals t |}.
Proof.
  revert t. induction turns as [|turns IH]; intros [a c i];
    cbn [ramp_step activeViewers conns intervals].
  - cbn [Nat.min seq]. by rewrite Nat.add_0_r, app_nil_r.
  - destruct (Nat.leb MAX_VIEWERS a) eqn:Hle.
    + apply Nat.leb_le in Hle.
      replace (MAX_VIEWERS - a)%nat with 0%nat by lia.
      rewrite Nat.min_0_r. cbn [seq]. by rewrite Nat.add_0_r, app_nil_r.
    + apply Nat.leb_gt in Hle. rewrite IH.
      cbn [activeViewers conns intervals].
      replace (MAX_VIEWERS - a)%nat with (S (MAX_VIEWERS - S a)) by lia.
      rewrite <- Nat.succ_min_distr. cbn [seq].
      rewrite <- app_assoc. cbn [app]. f_equal. lia.
Qed.

(** X21: from any number of active viewers up to the maximum, [ramp] comes
    to its end (within as many turns of its loop as there are viewers still
    to create, and one more) with exactly [MAX_VIEWERS] viewers active. It
    has created the missing viewers, once each, with consecutive ids in
    increasing order, and has waited one interval for each batch of up to
    [RAMP_STEP] viewers, the last batch being the remainder. *)
Theorem ramp_reaches_the_maximum (t : LoadTest) (turns : nat) :
  (activeViewers t ≤ MAX_VIEWERS)%nat →
  (MAX_VIEWERS - activeViewers t < turns)%nat →
  ∃ rounds,
    ramp turns t =
      Some {| activeViewers := MAX_VIEWERS;
              conns := (conns t ++ seq (activeViewers t)
                                     (MAX_VIEWERS - activeViewers t))%list;
              intervals := intervals t + rounds |} ∧
    (MAX_VIEWERS - activeViewers t ≤ rounds * RAMP_STEP)%nat ∧
    (rounds * RAMP_STEP < MAX_VIEWERS - activeViewers t + RAMP_STEP)%nat.
Proof.
  assert (0 < RAMP_STEP)%nat as Hstep by (unfold RAMP_STEP; lia).
  revert t. induction turns as [|turns IH]; intros [a c i];
    cbn [ramp activeViewers conns intervals]; intros Hle Hturns.
  - lia.
  - destruct (Nat.ltb a MAX_VIEWERS) eqn:Hlt.
    + apply Nat.ltb_lt in Hlt. rewrite ramp_step_spec.
      cbn [activeViewers conns intervals].
      destruct (decide (MAX_VIEWERS - a ≤ RAMP_STEP)%nat) as [Hlast|Hmore].
      * rewrite Nat.min_r by done.
        destruct turns as [|turns']; [lia|].
        cbn [ramp activeViewers conns intervals].
        replace (a + (MAX_VIEWERS - a))%nat with MAX_VIEWERS by lia.
        rewrite Nat.ltb_irrefl. exists 1%nat. split_and!.
        -- f_equal. f_equal. lia.
        -- lia.
        -- lia.
      * rewrite Nat.min_l by lia.
        edestruct (IH {| activeViewers := a + RAMP_STEP;
                         conns := c ++ seq a RAMP_STEP;
                         intervals := S i |}) as (rounds & -> & Hlo & Hhi);
          cbn [activeViewers conns intervals] in *; [lia..|].
        exists (S rounds). split_and!.
        -- f_equal. f_equal; [|lia].
           rewrite <- app_assoc. f_equal.
           replace (MAX_VIEWERS - a)%nat
             with (RAMP_STEP + (MAX_VIEWERS - (a + RAMP_STEP)))%nat by lia.
           by rewrite seq_app.
        -- lia.
        -- lia.
    + apply Nat.ltb_ge in Hlt. exists 0%nat.
      assert (a = MAX_VIEWERS) as -> by lia.
      rewrite Nat.sub_diag. cbn [seq].
      rewrite app_nil_r, Nat.add_0_r. split_and!; [done|lia|lia].
Qed.

Lemma ramp_reaches_the_maximum_witness :
  ∃ rounds,
    ramp 201 {| activeViewers := 0; conns := []; intervals := 0 |} =
      Some {| activeViewers := MAX_VIEWERS;
              conns := ([] ++ seq 0 (MAX_VIEWERS - 0))%list;
              intervals := 0 + rounds |} ∧
    (MAX_VIEWERS - 0 ≤ rounds * RAMP_STEP)%nat ∧
    (rounds * RAMP_STEP < MAX_VIEWERS - 0 + RAMP_STEP)%nat.
Proof.
  apply (ramp_reaches_the_maximum
           {| activeViewers := 0; conns := []; intervals := 0 |} 201).
  - unfold MAX_VIEWERS. simpl. lia.
  - unfold MAX_VIEWERS. simpl. lia.
Defined.

End ViewerFacts.
